(** * quijy.gen: the Pauli lookup [sig] and the Heisenberg builder [ham_heis]

    A shallow embedding of [src/quijy/gen.py].  Matrices are lists of rows,
    as in the nested list literals the source hands to [qonvert]; every
    matrix carries the storage format (dense or sparse) it has in the
    program.  Entries are complex numbers over a commutative ring of real
    scalars, so that every statement holds for the reals and can be
    evaluated over the integers. *)

From Stdlib Require Import String ZArith Arith PeanoNat Bool List Lia Ring.
From Stdlib Require Import Rdefinitions RealField.
From Stdlib Require Import Field R_sqrt Lra RIneq.
Import ListNotations.

Open Scope Z_scope.

(** ** Real scalars *)

Record RealRing : Type := {
  carrier :> Type;
  r0 : carrier;
  r1 : carrier;
  radd : carrier -> carrier -> carrier;
  rmul : carrier -> carrier -> carrier;
  rsub : carrier -> carrier -> carrier;
  ropp : carrier -> carrier;
  Kth : ring_theory r0 r1 radd rmul rsub ropp eq
}.

Arguments r0 {_}.
Arguments r1 {_}.
Arguments radd {_}.
Arguments rmul {_}.
Arguments rsub {_}.
Arguments ropp {_}.

(** The integers, on which the model evaluates. *)
Definition ZRing : RealRing :=
  {| carrier := Z; r0 := 0; r1 := 1; radd := Z.add; rmul := Z.mul;
     rsub := Z.sub; ropp := Z.opp; Kth := Zth |}.

(** The real numbers, which the couplings [jx], [jy], [jz] and the field
    [bz] range over. *)
Definition RRing : RealRing :=
  {| carrier := R; r0 := 0%R; r1 := 1%R; radd := Rplus; rmul := Rmult;
     rsub := Rminus; ropp := Ropp; Kth := RTheory |}.

(** ** Python values and exceptions *)

(** The values a caller can pass as [xyz] to [sig]. *)
Inductive pyval : Type :=
| PyInt (z : Z)
| PyBool (b : bool)
| PyStr (s : string).

(** Python's [==] on these values: a bool compares as the int 0 or 1, a
    string equals only a string. *)
Definition py_eqb (a b : pyval) : bool :=
  match a, b with
  | PyInt x, PyInt y => Z.eqb x y
  | PyBool x, PyBool y => Bool.eqb x y
  | PyInt x, PyBool y => Z.eqb x (if y then 1 else 0)
  | PyBool x, PyInt y => Z.eqb (if x then 1 else 0) y
  | PyStr s, PyStr t => String.eqb s t
  | _, _ => false
  end.

(** [x in (a, b, c)] *)
Definition py_in (x : pyval) (l : list pyval) : bool := existsb (py_eqb x) l.

Inductive pyexc : Type := ValueError | TypeError.

Inductive result (A : Type) : Type :=
| Ok (a : A)
| Raise (e : pyexc).

Arguments Ok {A} a.
Arguments Raise {A} e.

Definition bind {A B : Type} (m : result A) (f : A -> result B) : result B :=
  match m with
  | Ok a => f a
  | Raise e => Raise e
  end.

Notation "x <- m ;; k" := (bind m (fun x => k))
  (at level 61, m at next level, right associativity).

(** Using [None] where a matrix is expected raises [TypeError]. *)
Definition need {A : Type} (o : option A) : result A :=
  match o with
  | Some a => Ok a
  | None => Raise TypeError
  end.

(** [range(n)] *)
Definition range (n : Z) : list Z := map Z.of_nat (seq 0 (Z.to_nat n)).

Inductive storage : Type := Dense | Sparse.

Section Model.

Context {K : RealRing}.

(** ** Complex numbers *)

Record complex : Type := mkC { re : K; im : K }.

Definition RtoC (r : K) : complex := mkC r r0.
Definition c0 : complex := RtoC r0.
Definition c1 : complex := RtoC r1.
(** The literal [1j]. *)
Definition cj : complex := mkC r0 r1.

Definition cadd (a b : complex) : complex :=
  mkC (radd (re a) (re b)) (radd (im a) (im b)).
Definition csub (a b : complex) : complex :=
  mkC (rsub (re a) (re b)) (rsub (im a) (im b)).
Definition copp (a : complex) : complex := mkC (ropp (re a)) (ropp (im a)).
Definition cmul (a b : complex) : complex :=
  mkC (rsub (rmul (re a) (re b)) (rmul (im a) (im b)))
      (radd (rmul (re a) (im b)) (rmul (im a) (re b))).
Definition cconj (a : complex) : complex := mkC (re a) (ropp (im a)).

(** ** Matrices *)

Definition rowlist : Type := list (list complex).

Record matrix : Type := mkM { fmt : storage; rows : rowlist }.

Definition nrows (A : rowlist) : nat := length A.
Definition ncols (A : rowlist) : nat := length (hd [] A).
Definition shape (M : matrix) : nat * nat := (nrows (rows M), ncols (rows M)).
Definition entry (A : rowlist) (i j : nat) : complex := nth j (nth i A []) c0.

(** The [r] by [c] matrix whose entry at [(i, j)] is [f i j]. *)
Definition build (r c : nat) (f : nat -> nat -> complex) : rowlist :=
  map (fun i => map (fun j => f i j) (seq 0 c)) (seq 0 r).

Definition issparse (M : matrix) : bool :=
  match fmt M with Sparse => true | Dense => false end.

Definition storage_of (sparse : bool) : storage :=
  if sparse then Sparse else Dense.

(** [M.todense()] *)
Definition todense (M : matrix) : matrix := mkM Dense (rows M).

(** [M.H], the conjugate transpose. *)
Definition dagger (M : matrix) : matrix :=
  mkM (fmt M)
      (build (ncols (rows M)) (nrows (rows M))
             (fun i j => cconj (entry (rows M) j i))).

Definition Hermitian (M : matrix) : Prop := dagger M = M.

(** [d] rows of [d] entries each. *)
Definition square (d : nat) (A : rowlist) : Prop :=
  length A = d /\ Forall (fun row => length row = d) A.

(** Square of dimension [d], and every entry is the conjugate of the one
    mirrored at the diagonal. *)
Definition herm_sq (d : nat) (M : matrix) : Prop :=
  square d (rows M) /\
  forall i j, (i < d)%nat -> (j < d)%nat ->
              entry (rows M) i j = cconj (entry (rows M) j i).

(** [r * M] for a real number [r]: the scalar is promoted to a complex
    number and multiplies every entry; the storage format is kept. *)
Definition mscale (r : K) (M : matrix) : matrix :=
  mkM (fmt M)
      (build (nrows (rows M)) (ncols (rows M))
             (fun i j => cmul (RtoC r) (entry (rows M) i j))).

Definition shape_eqb (A B : matrix) : bool :=
  (nrows (rows A) =? nrows (rows B))%nat && (ncols (rows A) =? ncols (rows B))%nat.

(** The sum of two sparse matrices is sparse; with a dense operand the sum is
    dense. *)
Definition sum_fmt (A B : matrix) : storage :=
  storage_of (issparse A && issparse B).

(** [A + B]: entrywise; operands of different shapes raise [ValueError]. *)
Definition madd (A B : matrix) : result matrix :=
  if shape_eqb A B
  then Ok (mkM (sum_fmt A B)
               (build (nrows (rows A)) (ncols (rows A))
                      (fun i j => cadd (entry (rows A) i j) (entry (rows B) i j))))
  else Raise ValueError.

(** [A - B] *)
Definition msub (A B : matrix) : result matrix :=
  if shape_eqb A B
  then Ok (mkM (sum_fmt A B)
               (build (nrows (rows A)) (ncols (rows A))
                      (fun i j => csub (entry (rows A) i j) (entry (rows B) i j))))
  else Raise ValueError.

(** ** The linear-algebra helpers of [quijy.core] *)

(** Modelled from the spec: [qonvert] of [quijy.core] is not among the
    sources.  The spec describes it as the conversion between the dense and
    the sparse representation; here it turns a nested list of entries into a
    matrix of the requested format. *)
Definition qonvert (data : rowlist) (sparse : bool) : matrix :=
  mkM (storage_of sparse) data.

(** Modelled from the spec: [eye] of [quijy.core] is not among the sources.
    It is the identity of the given dimension, dense unless [sparse]. *)
Definition eye (d : nat) (sparse : bool) : matrix :=
  mkM (storage_of sparse)
      (build d d (fun i j => if (i =? j)%nat then c1 else c0)).

(** Modelled from the spec: [kron] of [quijy.core] is not among the sources.
    It is the Kronecker product: the entry at [(i, j)] is the product of the
    entry of [A] at the block coordinates and the entry of [B] at the
    coordinates inside the block.  The product is sparse as soon as one factor
    is (the spec has the two-site block, one factor of which is the dense
    [eye(2)], always built in sparse form). *)
Definition kron (A B : matrix) : matrix :=
  mkM (storage_of (issparse A || issparse B))
      (build (nrows (rows A) * nrows (rows B))%nat
             (ncols (rows A) * ncols (rows B))%nat
             (fun i j =>
                cmul (entry (rows A) (i / nrows (rows B))%nat (j / ncols (rows B))%nat)
                     (entry (rows B) (i mod nrows (rows B))%nat
                            (j mod ncols (rows B))%nat))).

(** Is site [k] one of the positions [inds]? *)
Definition at_site (k : nat) (inds : list Z) : bool :=
  existsb (Z.eqb (Z.of_nat k)) inds.

(** Modelled from the spec: [eyepad] of [quijy.core] is not among the sources.
    The spec describes it as embedding an operator into a larger
    tensor-product space at the specified site position(s) with identity fill
    elsewhere: walking over the sites of [dims], the factor at a site listed
    in [inds] is the operator [a] itself (whatever its size, so that a
    two-site block placed at one position of a space with one site less covers
    two sites), and the factor at any other site is the identity of that
    site's dimension, in the format of [a].  A site listed more than once
    carries [a] once; a position that is no site of [dims] places nothing; an
    integer given for [inds] is the list of that one position.  The spec
    describes neither an empty [dims] nor a position outside it: what the
    helper does for [n < 1] is left open in [ham_heis_with] below. *)
Fixpoint eyepad_from (k : nat) (a : matrix) (dims : list nat) (inds : list Z)
         (b : matrix) : matrix :=
  match dims with
  | [] => b
  | d :: rest =>
      eyepad_from (S k) a rest inds
        (kron b (if at_site k inds then a else eye d (issparse a)))
  end.

Definition eyepad (a : matrix) (dims : list nat) (inds : list Z) : matrix :=
  eyepad_from 0 a dims inds (eye 1 (issparse a)).

(** ** [sig] *)

Definition sig (xyz : pyval) (sparse : bool) : option matrix :=
  if py_in xyz [PyInt 1; PyStr "x"; PyStr "X"] then
    Some (qonvert [[c0; c1]; [c1; c0]] sparse)
  else if py_in xyz [PyInt 2; PyStr "y"; PyStr "Y"] then
    Some (qonvert [[c0; copp cj]; [cj; c0]] sparse)
  else if py_in xyz [PyInt 3; PyStr "z"; PyStr "Z"] then
    Some (qonvert [[c1; c0]; [c0; copp c1]] sparse)
  else if py_in xyz [PyInt 0; PyStr "i"; PyStr "I"] then
    Some (qonvert [[c1; c0]; [c0; c1]] sparse)
  else None.

(** The arguments [sig] recognises. *)
Definition recognized : list pyval :=
  [PyInt 1; PyStr "x"; PyStr "X"; PyInt 2; PyStr "y"; PyStr "Y";
   PyInt 3; PyStr "z"; PyStr "Z"; PyInt 0; PyStr "i"; PyStr "I"].

(** ** [ham_heis] *)

(** [dims = [2] * n]: empty when [n] is not positive. *)
Definition site_dims (n : Z) : list nat := repeat 2%nat (Z.to_nat n).

(** The two-site block [sds]. *)
Definition sds_block (jx jy jz bz : K) : result matrix :=
  sx <- need (sig (PyStr "x") true) ;;
  sy <- need (sig (PyStr "y") true) ;;
  sz <- need (sig (PyStr "z") true) ;;
  t1 <- madd (mscale jx (kron sx sx)) (mscale jy (kron sy sy)) ;;
  t2 <- madd t1 (mscale jz (kron sz sz)) ;;
  msub t2 (mscale bz (kron sz (eye 2 false))).

(** One pass of the loop body: [ham = ham + eyepad(sds, dims[:-1], i)]. *)
Definition chain_step (sds : matrix) (dims : list nat)
           (acc : result matrix) (i : Z) : result matrix :=
  ham <- acc ;;
  madd ham (eyepad sds (removelast dims) [i]).

(** The accumulator after the loop: the field term on the last site and the
    block on every pair of neighbours. *)
Definition open_chain (n : Z) (jx jy jz bz : K) : result matrix :=
  let dims := site_dims n in
  sds <- sds_block jx jy jz bz ;;
  sz <- need (sig (PyStr "z") true) ;;
  fold_left (chain_step sds dims) (range (n - 1))
            (Ok (eyepad (mscale (ropp bz) sz) dims [n - 1])).

(** The three terms of the [if periodic:] branch, in the order they are
    added. *)
Definition boundary_terms (n : Z) : result (list matrix) :=
  let dims := site_dims n in
  sx <- need (sig (PyStr "x") true) ;;
  sy <- need (sig (PyStr "y") true) ;;
  sz <- need (sig (PyStr "z") true) ;;
  Ok [eyepad sx dims [0; n - 1]; eyepad sy dims [0; n - 1];
      eyepad sz dims [0; n - 1]].

(** [ham + t1 + t2 + t3], added from the left. *)
Definition add_all (ham : matrix) (ts : list matrix) : result matrix :=
  fold_left (fun acc t => h <- acc ;; madd h t) ts (Ok ham).

(** The last two lines: densify unless [sparse]. *)
Definition finish (sparse : bool) (ham : matrix) : matrix :=
  if negb sparse then todense ham else ham.

(** The accumulator [ham] just before the output conversion. *)
Definition accumulated (n : Z) (jx jy jz bz : K) (periodic : bool)
  : result matrix :=
  ham <- open_chain n jx jy jz bz ;;
  if periodic
  then (ts <- boundary_terms n ;; add_all ham ts)
  else Ok ham.

Definition ham_heis (n : Z) (jx jy jz bz : K) (periodic sparse : bool)
  : result matrix :=
  ham <- accumulated n jx jy jz bz periodic ;;
  Ok (finish sparse ham).

(** The periodic branch as the specification words it: the same three
    embedded terms, each carrying its coupling constant.  Compared with
    [boundary_terms], which is what the source adds. *)
Definition spec_boundary_terms (n : Z) (jx jy jz : K) : result (list matrix) :=
  let dims := site_dims n in
  sx <- need (sig (PyStr "x") true) ;;
  sy <- need (sig (PyStr "y") true) ;;
  sz <- need (sig (PyStr "z") true) ;;
  Ok [mscale jx (eyepad sx dims [0; n - 1]);
      mscale jy (eyepad sy dims [0; n - 1]);
      mscale jz (eyepad sz dims [0; n - 1])].

(** The four matrices [sig] can return. *)
Definition sigma_x (sparse : bool) : matrix := qonvert [[c0; c1]; [c1; c0]] sparse.
Definition sigma_y (sparse : bool) : matrix :=
  qonvert [[c0; copp cj]; [cj; c0]] sparse.
Definition sigma_z (sparse : bool) : matrix :=
  qonvert [[c1; c0]; [c0; copp c1]] sparse.
Definition sigma_i (sparse : bool) : matrix := qonvert [[c1; c0]; [c0; c1]] sparse.

End Model.

Arguments complex : clear implicits.
Arguments matrix : clear implicits.
Arguments rowlist : clear implicits.

(** ** [ham_heis] with the embedding helper left open *)

Section WithHelper.

Context {K : RealRing}.

(** [pad a dims inds] stands for the call [eyepad(a, dims, inds)] of
    [quijy.core]: it returns a matrix or raises.  Nothing is assumed of it,
    so what is proved of [ham_heis_with] is read off [gen.py] alone. *)
Variable pad : matrix K -> list nat -> list Z -> result (matrix K).

(** [ham = ham + eyepad(sds, dims[:-1], i)] *)
Definition chain_step_with (sds : matrix K) (dims : list nat)
           (acc : result (matrix K)) (i : Z) : result (matrix K) :=
  ham <- acc ;;
  t <- pad sds (removelast dims) [i] ;;
  madd ham t.

Definition open_chain_with (n : Z) (jx jy jz bz : K) : result (matrix K) :=
  let dims := site_dims n in
  sds <- sds_block jx jy jz bz ;;
  sz <- need (sig (PyStr "z") true) ;;
  ham <- pad (mscale (ropp bz) sz) dims [n - 1] ;;
  fold_left (chain_step_with sds dims) (range (n - 1)) (Ok ham).

(** The [if periodic:] branch: each term is built, then added. *)
Definition add_boundary_with (n : Z) (ham : matrix K) : result (matrix K) :=
  let dims := site_dims n in
  sx <- need (sig (PyStr "x") true) ;;
  tx <- pad sx dims [0; n - 1] ;;
  h1 <- madd ham tx ;;
  sy <- need (sig (PyStr "y") true) ;;
  ty <- pad sy dims [0; n - 1] ;;
  h2 <- madd h1 ty ;;
  sz <- need (sig (PyStr "z") true) ;;
  tz <- pad sz dims [0; n - 1] ;;
  madd h2 tz.

Definition ham_heis_with (n : Z) (jx jy jz bz : K) (periodic sparse : bool)
  : result (matrix K) :=
  ham <- open_chain_with n jx jy jz bz ;;
  ham <- (if periodic then add_boundary_with n ham else Ok ham) ;;
  Ok (finish sparse ham).

End WithHelper.

(** * The state constructors of [gen.py] *)

(** ** Real scalars with division and square root

    [basis_vec] needs the ring of scalars only.  The other constructors divide
    and take square roots; their floating-point numbers are read as exact
    reals: a field with a square root of every sum of three squares, in which
    [2] is not [0] and equality with [0] can be tested. *)

Record RealField : Type := {
  scalars :> RealRing;
  rdiv : scalars -> scalars -> scalars;
  rinv : scalars -> scalars;
  rsqrt : scalars -> scalars;
  Fth : field_theory (r0 (r:=scalars)) r1 radd rmul rsub ropp rdiv rinv eq;
  two_neq_0 : radd (r1 (r:=scalars)) r1 <> r0;
  rsqrt_sq : forall a b c : scalars,
      rmul (rsqrt (radd (radd (rmul a a) (rmul b b)) (rmul c c)))
           (rsqrt (radd (radd (rmul a a) (rmul b b)) (rmul c c)))
      = radd (radd (rmul a a) (rmul b b)) (rmul c c);
  rzero_dec : forall x : scalars, {x = r0} + {x <> r0}
}.

Arguments rdiv {_}.
Arguments rinv {_}.
Arguments rsqrt {_}.

Lemma R_two_neq_0 : (1 + 1 <> 0)%R.
Proof. lra. Qed.

Lemma R_sqrt_sq (a b c : R) :
  (sqrt (a * a + b * b + c * c) * sqrt (a * a + b * b + c * c)
   = a * a + b * b + c * c)%R.
Proof. apply sqrt_sqrt. nra. Qed.

(** The real numbers. *)
Definition RField : RealField :=
  {| scalars := RRing; rdiv := Rdiv; rinv := Rinv; rsqrt := sqrt;
     Fth := Rfield; two_neq_0 := R_two_neq_0; rsqrt_sq := R_sqrt_sq;
     rzero_dec := fun x => Req_dec_T x 0%R |}.

(** ** Exceptions of the array libraries *)

(** [IndexError] and [OverflowError] besides the exceptions met so far. *)
Inductive exc : Type :=
| Py (e : pyexc)
| IndexError
| OverflowError.

(** Does the integer fit a signed 64-bit machine integer? *)
Definition fits_int64 (z : Z) : bool := (- 2 ^ 63 <=? z) && (z <? 2 ^ 63).

Inductive attempt (A : Type) : Type :=
| Done (a : A)
| Throw (e : exc).

Arguments Done {A} a.
Arguments Throw {A} e.

(** A floating-point result: finite numbers, or not-a-number throughout. *)
Inductive floats (A : Type) : Type :=
| Finite (a : A)
| NotFinite.

Arguments Finite {A} a.
Arguments NotFinite {A}.

Section Vectors.

Context {K : RealRing}.

(** [np.zeros([r, c], dtype=complex)] *)
Definition zeros (r c : nat) : rowlist K := repeat (repeat c0 c) r.

(** [x[i] = v] on a two-dimensional array, [0 <= i]: every entry of row [i]
    becomes [v]. *)
Fixpoint set_row (x : rowlist K) (i : nat) (v : complex K) : rowlist K :=
  match x, i with
  | [], _ => []
  | row :: rest, O => map (fun _ => v) row :: rest
  | row :: rest, S i' => row :: set_row rest i' v
  end.

(** [basis_vec(dir, dim, sparse)].  The sparse branch builds the matrix whose
    one stored entry is [1.0] at [(dir, 0)]; the constructor refuses a row
    index that is negative or not below [dim].  The dense branch fills an
    array with zeros ([np.zeros] refuses a negative [dim]) and assigns at
    index [dir], where a negative index counts from the end and an index out
    of range raises [IndexError].  In both branches an index out of range
    that does not fit a machine integer raises [OverflowError] instead. *)
Definition basis_vec (dir dim : Z) (sparse : bool) : attempt (matrix K) :=
  if sparse then
    if (0 <=? dir) && (dir <? dim)
    then Done (mkM Sparse
                   (build (Z.to_nat dim) 1
                          (fun i _ => if (i =? Z.to_nat dir)%nat then c1 else c0)))
    else if (- dim <=? dir) && (dir <? 0) then Throw (Py ValueError)
    else if fits_int64 dir then Throw (Py ValueError)
    else Throw OverflowError
  else
    if dim <? 0 then Throw (Py ValueError)
    else
      let x := zeros (Z.to_nat dim) 1 in
      if (- dim <=? dir) && (dir <? dim)
      then Done (mkM Dense
                     (set_row x (Z.to_nat (if dir <? 0 then dir + dim else dir)) c1))
      else if fits_int64 dir then Throw IndexError
      else Throw OverflowError.

(** ** Products and traces *)

Definition csum (l : list (complex K)) : complex K := fold_right cadd c0 l.

(** The product of two rectangular matrices: [A * B] on [np.matrix], which
    raises [ValueError] unless [A] has as many columns as [B] has rows. *)
Definition mmul (A B : matrix K) : result (matrix K) :=
  if (ncols (rows A) =? nrows (rows B))%nat
  then Ok (mkM (sum_fmt A B)
               (build (nrows (rows A)) (ncols (rows B))
                      (fun i j =>
                         csum (map (fun k => cmul (entry (rows A) i k)
                                                  (entry (rows B) k j))
                                   (seq 0 (ncols (rows A)))))))
  else Raise ValueError.

(** The sum of the diagonal. *)
Definition trace (M : matrix K) : complex K :=
  csum (map (fun i => entry (rows M) i i) (seq 0 (nrows (rows M)))).

(** Modelled from the spec: [qonvert] of [quijy.core] is not among the
    sources.  With the type ['ket'] it makes a flat list the column vector of
    its entries, dense: [werner_state] multiplies such a vector with its own
    conjugate transpose and adds the 4 by 4 identity. *)
Definition qonvert_ket (data : list (complex K)) : matrix K :=
  mkM Dense (map (fun x => [x]) data).

End Vectors.

Section States.

Context {F : RealField}.

(** A complex number divided by a real one. *)
Definition cdivr (x : complex F) (s : F) : complex F :=
  mkC (rdiv (re x) s) (rdiv (im x) s).

(** [M / s] for a real number [s]. *)
Definition mdivr (M : matrix F) (s : F) : matrix F :=
  mkM (fmt M)
      (build (nrows (rows M)) (ncols (rows M))
             (fun i j => cdivr (entry (rows M) i j) s)).

(** The literals [2.0 ** 0.5], [0.5] and [4]. *)
Definition root2 : F := rsqrt (radd r1 r1).
Definition half : F := rdiv r1 (radd r1 r1).
Definition four : F := radd (radd (radd r1 r1) r1) r1.

(** [bell_state(s)] *)
Definition bell_state (s : pyval) : option (matrix F) :=
  if py_in s [PyInt 3; PyStr "psim"] then
    Some (mdivr (qonvert_ket [c0; c1; RtoC (ropp r1); c0]) root2)
  else if py_in s [PyInt 0; PyStr "phip"] then
    Some (mdivr (qonvert_ket [c1; c0; c0; c1]) root2)
  else if py_in s [PyInt 1; PyStr "phim"] then
    Some (mdivr (qonvert_ket [c1; c0; c0; RtoC (ropp r1)]) root2)
  else if py_in s [PyInt 2; PyStr "psip"] then
    Some (mdivr (qonvert_ket [c0; c1; c1; c0]) root2)
  else None.

(** The arguments [bell_state] recognises. *)
Definition bell_names : list pyval :=
  [PyInt 3; PyStr "psim"; PyInt 0; PyStr "phip";
   PyInt 1; PyStr "phim"; PyInt 2; PyStr "psip"].

(** [singlet()] *)
Definition singlet : option (matrix F) := bell_state (PyInt 3).

Section Purify.

(** [np.array([ax, ay, az]) / np.sqrt(ax**2 + ay**2 + az**2)], the step of
    [bloch_state] under [purify].  It is floating-point arithmetic whose
    outcome turns on overflow, underflow and division by zero, which exact
    reals do not show; it is left open: it raises, or gives three finite
    components, or components that are not finite. *)
Variable normalize : F -> F -> F -> attempt (floats (F * F * F)).

(** [0.5 * (sig('i') + ax * sig('x') + ay * sig('y') + az * sig('z'))], then
    the conversion the [sparse] flag asks for. *)
Definition bloch_rho (ax ay az : F) (sparse : bool) : result (matrix F) :=
  si <- need (sig (PyStr "i") false) ;;
  sx <- need (sig (PyStr "x") false) ;;
  sy <- need (sig (PyStr "y") false) ;;
  sz <- need (sig (PyStr "z") false) ;;
  t1 <- madd si (mscale ax sx) ;;
  t2 <- madd t1 (mscale ay sy) ;;
  t3 <- madd t2 (mscale az sz) ;;
  let rho := mscale half t3 in
  Ok (if negb sparse then rho else qonvert (rows rho) sparse).

(** [bloch_state(ax, ay, az, purify, sparse)].  Components that are not
    finite leave no finite entry in the result. *)
Definition bloch_state (ax ay az : F) (purify sparse : bool)
  : attempt (floats (matrix F)) :=
  match (if purify then normalize ax ay az else Done (Finite (ax, ay, az))) with
  | Throw e => Throw e
  | Done NotFinite => Done NotFinite
  | Done (Finite (bx, by_, bz)) =>
      match bloch_rho bx by_ bz sparse with
      | Ok rho => Done (Finite rho)
      | Raise e => Throw (Py e)
      end
  end.

End Purify.

(** [werner_state(p)]: [p * bell_state(3) * bell_state(3).H
    + (1 - p) * np.eye(4) / 4], the product of [np.matrix] being the matrix
    product. *)
Definition werner_state (p : F) : result (matrix F) :=
  b <- need (bell_state (PyInt 3)) ;;
  t <- mmul (mscale p b) (dagger b) ;;
  madd t (mdivr (mscale (rsub r1 p) (eye 4 false)) four).

(** [ghz_state(n)].  For a negative [n] the power [2 ** n] is a float, which
    [np.zeros] does not take as a dimension. *)
Definition ghz_state (n : Z) : attempt (matrix F) :=
  if n <? 0 then Throw (Py TypeError)
  else
    let d := 2 ^ n in
    match basis_vec 0 d false, basis_vec (d - 1) d false with
    | Done u, Done v =>
        match madd u v with
        | Ok s => Done (mdivr s root2)
        | Raise e => Throw (Py e)
        end
    | Throw e, _ => Throw e
    | _, Throw e => Throw e
    end.

End States.

Section Relations.

Context {K : RealRing}.

(** [M'] is [M] with every entry multiplied by the real number [a]; both are
    square of dimension [d] and stored alike. *)
Definition scaled_by (a : K) (d : nat) (M M' : matrix K) : Prop :=
  square d (rows M) /\ square d (rows M') /\ fmt M = fmt M'
  /\ forall i j, (i < d)%nat -> (j < d)%nat ->
                 entry (rows M') i j = cmul (RtoC a) (entry (rows M) i j).

End Relations.


(** * Facts about the model *)

Lemma nth_map_seq {A : Type} (f : nat -> A) (n i : nat) (d : A) :
  (i < n)%nat -> nth i (map f (seq 0 n)) d = f i.
Proof.
  intros Hi.
  rewrite (nth_indep _ d (f 0%nat)) by (rewrite length_map, length_seq; lia).
  rewrite map_nth, seq_nth by lia.
  reflexivity.
Qed.

Section Facts.

Context {K : RealRing}.

Add Ring Kring : (Kth K).

Implicit Types (A B : rowlist K) (M N : matrix K) (x y : complex K).

(** ** Complex arithmetic *)

Lemma cconj_cmul x y : cconj (cmul x y) = cmul (cconj x) (cconj y).
Proof. destruct x, y; unfold cconj, cmul; simpl; f_equal; ring. Qed.

Lemma cconj_cadd x y : cconj (cadd x y) = cadd (cconj x) (cconj y).
Proof. destruct x, y; unfold cconj, cadd; simpl; f_equal; ring. Qed.

Lemma cconj_csub x y : cconj (csub x y) = csub (cconj x) (cconj y).
Proof. destruct x, y; unfold cconj, csub; simpl; f_equal; ring. Qed.

Lemma cconj_RtoC (r : K) : cconj (RtoC r) = RtoC r.
Proof. unfold cconj, RtoC; simpl; f_equal; ring. Qed.

Lemma RtoC_opp (r : K) : RtoC (ropp r) = copp (RtoC r).
Proof. unfold copp, RtoC; simpl; f_equal; ring. Qed.

Lemma RtoC_add (r s : K) : RtoC (radd r s) = cadd (RtoC r) (RtoC s).
Proof. unfold cadd, RtoC; simpl; f_equal; ring. Qed.

Lemma RtoC_sub (r s : K) : RtoC (rsub r s) = csub (RtoC r) (RtoC s).
Proof. unfold csub, RtoC; simpl; f_equal; ring. Qed.

(** The complex numbers over [K] form a commutative ring. *)
Lemma complex_th : ring_theory (c0 (K:=K)) c1 cadd cmul csub copp eq.
Proof.
  constructor; intros;
    repeat match goal with x : complex K |- _ => destruct x end;
    unfold c0, c1, RtoC, cadd, cmul, csub, copp; simpl; f_equal; ring.
Qed.

(** ** Rows and entries *)

Lemma build_length r c f : length (build (K:=K) r c f) = r.
Proof. unfold build. now rewrite length_map, length_seq. Qed.

Lemma build_row_lengths r c f :
  Forall (fun row => length row = c) (build (K:=K) r c f).
Proof.
  unfold build. apply Forall_forall. intros row Hin.
  apply in_map_iff in Hin. destruct Hin as [i [<- _]].
  now rewrite length_map, length_seq.
Qed.

Lemma square_build d f : square d (build (K:=K) d d f).
Proof. split; [apply build_length | apply build_row_lengths]. Qed.

Lemma entry_build r c f i j :
  (i < r)%nat -> (j < c)%nat -> entry (build (K:=K) r c f) i j = f i j.
Proof.
  intros Hi Hj. unfold entry, build.
  rewrite (nth_map_seq (fun i => map (fun j => f i j) (seq 0 c))) by assumption.
  now rewrite (nth_map_seq (f i)).
Qed.

Lemma square_nrows d A : square d A -> nrows A = d.
Proof. now intros [H _]. Qed.

Lemma square_ncols d A : square d A -> ncols A = d.
Proof.
  intros [Hl Hr]. unfold ncols. destruct A as [|row A]; simpl in *.
  - assumption.
  - now inversion Hr.
Qed.

Lemma square_row_length d A i :
  square d A -> (i < d)%nat -> length (nth i A []) = d.
Proof.
  intros [Hl Hr] Hi. rewrite Forall_forall in Hr.
  apply Hr, nth_In. lia.
Qed.

(** Two square matrices with the same entries are the same list of rows. *)
Lemma square_ext d A B :
  square d A -> square d B ->
  (forall i j, (i < d)%nat -> (j < d)%nat -> entry A i j = entry B i j) ->
  A = B.
Proof.
  intros HA HB Hent.
  apply (nth_ext A B [] []).
  - destruct HA, HB. congruence.
  - intros i Hi. rewrite (proj1 HA) in Hi.
    apply (nth_ext _ _ c0 c0).
    + now rewrite (square_row_length d A i), (square_row_length d B i).
    + intros j Hj. rewrite (square_row_length d A i) in Hj by assumption.
      now apply Hent.
Qed.

Lemma herm_sq_cast d d' M : d = d' -> herm_sq d M -> herm_sq d' M.
Proof. now intros ->. Qed.

Lemma herm_sq_shape d M : herm_sq d M -> shape M = (d, d).
Proof.
  intros [Hs _]. unfold shape.
  now rewrite (square_nrows d), (square_ncols d).
Qed.

Lemma herm_sq_Hermitian d M : herm_sq d M -> Hermitian M.
Proof.
  intros [Hs He]. destruct M as [s A]. unfold Hermitian, dagger. simpl in *.
  f_equal.
  rewrite (square_nrows d A), (square_ncols d A) by assumption.
  apply (square_ext d); [apply square_build | assumption |].
  intros i j Hi Hj. rewrite entry_build by assumption.
  symmetry. now apply He.
Qed.

(** ** The operations keep square Hermitian matrices *)

Lemma eye_herm_sq d s : herm_sq d (eye (K:=K) d s).
Proof.
  split; simpl; [apply square_build |].
  intros i j Hi Hj. rewrite !entry_build by assumption.
  rewrite (Nat.eqb_sym j i).
  destruct (i =? j)%nat; unfold c1, c0; now rewrite cconj_RtoC.
Qed.

Lemma mscale_herm_sq d (r : K) M : herm_sq d M -> herm_sq d (mscale r M).
Proof.
  intros [Hs He]. unfold mscale.
  rewrite (square_nrows d), (square_ncols d) by assumption.
  split; simpl; [apply square_build |].
  intros i j Hi Hj. rewrite !entry_build by assumption.
  now rewrite cconj_cmul, cconj_RtoC, <- He.
Qed.

Lemma shape_eqb_square d M N :
  square d (rows M) -> square d (rows N) -> shape_eqb M N = true.
Proof.
  intros HM HN. unfold shape_eqb.
  rewrite (square_nrows d (rows M)), (square_nrows d (rows N)),
    (square_ncols d (rows M)), (square_ncols d (rows N)) by assumption.
  now rewrite Nat.eqb_refl.
Qed.

Lemma madd_herm_sq d M N :
  herm_sq d M -> herm_sq d N ->
  exists S, madd M N = Ok S /\ herm_sq d S /\ fmt S = sum_fmt M N.
Proof.
  intros [HsM HeM] [HsN HeN]. unfold madd.
  rewrite (shape_eqb_square d) by assumption.
  rewrite (square_nrows d), (square_ncols d) by assumption.
  eexists. split; [reflexivity |]. split; [| reflexivity].
  split; simpl; [apply square_build |].
  intros i j Hi Hj. rewrite !entry_build by assumption.
  now rewrite cconj_cadd, <- HeM, <- HeN.
Qed.

Lemma msub_herm_sq d M N :
  herm_sq d M -> herm_sq d N ->
  exists S, msub M N = Ok S /\ herm_sq d S /\ fmt S = sum_fmt M N.
Proof.
  intros [HsM HeM] [HsN HeN]. unfold msub.
  rewrite (shape_eqb_square d) by assumption.
  rewrite (square_nrows d), (square_ncols d) by assumption.
  eexists. split; [reflexivity |]. split; [| reflexivity].
  split; simpl; [apply square_build |].
  intros i j Hi Hj. rewrite !entry_build by assumption.
  now rewrite cconj_csub, <- HeM, <- HeN.
Qed.

Lemma kron_herm_sq dA dB M N :
  herm_sq dA M -> herm_sq dB N -> herm_sq (dA * dB) (kron M N).
Proof.
  intros [HsM HeM] [HsN HeN]. unfold kron.
  rewrite (square_nrows dA (rows M)), (square_ncols dA (rows M)),
    (square_nrows dB (rows N)), (square_ncols dB (rows N)) by assumption.
  split; simpl; [apply square_build |].
  intros i j Hi Hj. rewrite !entry_build by assumption.
  assert (HdB : dB <> 0%nat) by (intros ->; lia).
  assert (Hiq : (i / dB < dA)%nat)
    by (apply Nat.Div0.div_lt_upper_bound; lia).
  assert (Hjq : (j / dB < dA)%nat)
    by (apply Nat.Div0.div_lt_upper_bound; lia).
  assert (Hir : (i mod dB < dB)%nat) by now apply Nat.mod_upper_bound.
  assert (Hjr : (j mod dB < dB)%nat) by now apply Nat.mod_upper_bound.
  now rewrite cconj_cmul, <- HeM, <- HeN.
Qed.

(** ** The Pauli matrices *)

Ltac pauli_herm :=
  split;
  [ split; [reflexivity | simpl; repeat constructor]
  | intros [|[|i]] [|[|j]] Hi Hj; try lia;
    unfold entry; simpl; unfold cconj, copp, cj, c1, c0, RtoC; simpl;
    f_equal; ring ].

Lemma sigma_x_herm_sq s : herm_sq 2 (sigma_x (K:=K) s).
Proof. pauli_herm. Qed.

Lemma sigma_y_herm_sq s : herm_sq 2 (sigma_y (K:=K) s).
Proof. pauli_herm. Qed.

Lemma sigma_z_herm_sq s : herm_sq 2 (sigma_z (K:=K) s).
Proof. pauli_herm. Qed.

(** ** [eyepad] *)

Lemma kron_sparse_l M N : issparse M = true -> fmt (kron M N) = Sparse.
Proof. intros H. unfold kron. simpl. now rewrite H. Qed.

Lemma fmt_issparse M : fmt M = Sparse -> issparse M = true.
Proof. unfold issparse. now intros ->. Qed.

Lemma eyepad_from_fmt dims : forall k (a : matrix K) inds b,
  fmt b = Sparse -> fmt (eyepad_from k a dims inds b) = Sparse.
Proof.
  induction dims as [|d dims IH]; intros k a inds b Hb; simpl.
  - assumption.
  - apply IH, kron_sparse_l, fmt_issparse, Hb.
Qed.

Lemma eyepad_fmt (a : matrix K) dims inds :
  fmt a = Sparse -> fmt (eyepad a dims inds) = Sparse.
Proof.
  intros Ha. unfold eyepad. apply eyepad_from_fmt.
  unfold eye. simpl. now rewrite (fmt_issparse a).
Qed.

(** Every factor is two-dimensional: the space of [m] sites has dimension
    [2 ^ m]. *)
Lemma eyepad_from_twos (a : matrix K) inds : forall m k b s,
  (forall j, (k <= j < k + m)%nat -> at_site j inds = true -> herm_sq 2 a) ->
  herm_sq s b ->
  herm_sq (s * 2 ^ m) (eyepad_from k a (repeat 2%nat m) inds b).
Proof.
  induction m as [|m IH]; intros k b s Ha Hb; cbn [repeat eyepad_from].
  - apply (herm_sq_cast s); [simpl; lia | assumption].
  - apply (herm_sq_cast (s * 2 * 2 ^ m)); [simpl; lia |].
    apply IH.
    + intros j Hj. apply Ha. lia.
    + apply kron_herm_sq; [assumption |].
      destruct (at_site k inds) eqn:Hk.
      * apply (Ha k); [lia | assumption].
      * apply eye_herm_sq.
Qed.

Lemma at_site_single k i : at_site k [Z.of_nat i] = (k =? i)%nat.
Proof.
  unfold at_site. simpl. rewrite orb_false_r.
  destruct (Nat.eqb_spec k i) as [->|Hne].
  - apply Z.eqb_refl.
  - apply Z.eqb_neq. lia.
Qed.

(** One wide block among two-dimensional identities. *)
Lemma eyepad_from_one (a : matrix K) da i : forall m k b s,
  herm_sq da a -> herm_sq s b -> (k <= i < k + m)%nat ->
  herm_sq (s * da * 2 ^ (m - 1))
          (eyepad_from k a (repeat 2%nat m) [Z.of_nat i] b).
Proof.
  induction m as [|m IH]; intros k b s Ha Hb Hi; [lia |].
  cbn [repeat eyepad_from]. rewrite at_site_single.
  replace (S m - 1)%nat with m by lia.
  destruct (Nat.eqb_spec k i) as [->|Hne].
  - apply eyepad_from_twos.
    + intros j Hj Hat. rewrite at_site_single in Hat.
      apply Nat.eqb_eq in Hat. lia.
    + now apply kron_herm_sq.
  - destruct m as [|m]; [lia |].
    apply (herm_sq_cast (s * 2 * da * 2 ^ (S m - 1))).
    + replace (S m - 1)%nat with m by lia. simpl. lia.
    + apply IH; [assumption | | lia].
      apply kron_herm_sq; [assumption | apply eye_herm_sq].
Qed.

Lemma removelast_repeat {T : Type} (x : T) m :
  removelast (repeat x m) = repeat x (m - 1).
Proof.
  induction m as [|m IH]; [reflexivity |].
  destruct m as [|m]; [reflexivity |].
  change (repeat x (S (S m))) with (x :: repeat x (S m)).
  change (removelast (x :: repeat x (S m)))
    with (x :: removelast (repeat x (S m))).
  rewrite IH. simpl. now rewrite Nat.sub_0_r.
Qed.

(** ** The accumulation *)

Lemma sum_fmt_sparse M N :
  fmt M = Sparse -> fmt N = Sparse -> sum_fmt M N = Sparse.
Proof. intros HM HN. unfold sum_fmt, issparse. now rewrite HM, HN. Qed.

Lemma sds_block_sound (jx jy jz bz : K) :
  exists sds, sds_block jx jy jz bz = Ok sds /\ herm_sq 4 sds /\ fmt sds = Sparse.
Proof.
  unfold sds_block.
  change (need (sig (PyStr "x") true)) with (Ok (sigma_x (K:=K) true)).
  change (need (sig (PyStr "y") true)) with (Ok (sigma_y (K:=K) true)).
  change (need (sig (PyStr "z") true)) with (Ok (sigma_z (K:=K) true)).
  cbn [bind].
  pose proof (sigma_x_herm_sq true) as Hx.
  pose proof (sigma_y_herm_sq true) as Hy.
  pose proof (sigma_z_herm_sq true) as Hz.
  destruct (madd_herm_sq 4 (mscale jx (kron (sigma_x true) (sigma_x true)))
              (mscale jy (kron (sigma_y true) (sigma_y true))))
    as [t1 [E1 [H1 F1]]];
    try (apply mscale_herm_sq, (kron_herm_sq 2 2); assumption).
  rewrite E1. cbn [bind].
  destruct (madd_herm_sq 4 t1 (mscale jz (kron (sigma_z true) (sigma_z true))))
    as [t2 [E2 [H2 F2]]];
    try assumption; try (apply mscale_herm_sq, (kron_herm_sq 2 2); assumption).
  rewrite E2. cbn [bind].
  destruct (msub_herm_sq 4 t2 (mscale bz (kron (sigma_z true) (eye 2 false))))
    as [t3 [E3 [H3 F3]]]; try assumption.
  { apply mscale_herm_sq, (kron_herm_sq 2 2); [assumption | apply eye_herm_sq]. }
  exists t3. split; [assumption |]. split; [assumption |].
  rewrite F3. apply sum_fmt_sparse; [| reflexivity].
  rewrite F2. apply sum_fmt_sparse; [| reflexivity].
  rewrite F1. reflexivity.
Qed.

Lemma chain_step_ok (sds : matrix K) dims h i :
  chain_step sds dims (Ok h) i = madd h (eyepad sds (removelast dims) [i]).
Proof. reflexivity. Qed.

Lemma chain_loop_sound (sds : matrix K) (N : nat) :
  herm_sq 4 sds -> fmt sds = Sparse ->
  forall (l : list nat) h,
    (forall i, In i l -> (i + 1 < N)%nat) ->
    herm_sq (2 ^ N) h -> fmt h = Sparse ->
    exists h', fold_left (chain_step sds (repeat 2%nat N)) (map Z.of_nat l) (Ok h)
               = Ok h'
               /\ herm_sq (2 ^ N) h' /\ fmt h' = Sparse.
Proof.
  intros Hsds Fsds. induction l as [|i l IH]; intros h Hl Hh Fh;
    cbn [map fold_left].
  - now exists h.
  - assert (Hi : (i + 1 < N)%nat) by (apply Hl; now left).
    assert (Hterm : herm_sq (2 ^ N)
                      (eyepad sds (removelast (repeat 2%nat N)) [Z.of_nat i])).
    { rewrite removelast_repeat. unfold eyepad.
      apply (herm_sq_cast (1 * 4 * 2 ^ (N - 1 - 1))).
      - destruct N as [|[|N]]; try lia.
        replace (S (S N) - 1 - 1)%nat with N by lia. simpl. lia.
      - apply eyepad_from_one; [assumption | apply eye_herm_sq | lia]. }
    destruct (madd_herm_sq _ _ _ Hh Hterm) as [h1 [E1 [H1 F1]]].
    rewrite chain_step_ok, E1.
    apply IH; [intros j Hj; apply Hl; now right | assumption |].
    rewrite F1. apply sum_fmt_sparse; [assumption |].
    now apply eyepad_fmt.
Qed.

Lemma open_chain_sound (n : Z) (jx jy jz bz : K) :
  1 <= n ->
  exists h, open_chain n jx jy jz bz = Ok h
            /\ herm_sq (2 ^ Z.to_nat n) h /\ fmt h = Sparse.
Proof.
  intros Hn. unfold open_chain.
  destruct (sds_block_sound jx jy jz bz) as [sds [Es [Hs Fs]]].
  rewrite Es. cbn [bind].
  change (need (sig (PyStr "z") true)) with (Ok (sigma_z (K:=K) true)).
  cbn [bind]. unfold range, site_dims.
  apply chain_loop_sound; try assumption.
  - intros i Hi. apply in_seq in Hi. lia.
  - unfold eyepad. apply (herm_sq_cast (1 * 2 ^ Z.to_nat n)); [lia |].
    apply eyepad_from_twos; [| apply eye_herm_sq].
    intros _ _ _. apply mscale_herm_sq, sigma_z_herm_sq.
  - apply eyepad_fmt. reflexivity.
Qed.

Lemma boundary_term_herm_sq (a : matrix K) m inds :
  herm_sq 2 a -> herm_sq (2 ^ m) (eyepad a (repeat 2%nat m) inds).
Proof.
  intros Ha. unfold eyepad. apply (herm_sq_cast (1 * 2 ^ m)); [lia |].
  apply eyepad_from_twos; [intros _ _ _; assumption | apply eye_herm_sq].
Qed.

Lemma accumulated_sound (n : Z) (jx jy jz bz : K) (periodic : bool) :
  1 <= n ->
  exists h, accumulated n jx jy jz bz periodic = Ok h
            /\ herm_sq (2 ^ Z.to_nat n) h /\ fmt h = Sparse.
Proof.
  intros Hn. unfold accumulated.
  destruct (open_chain_sound n jx jy jz bz Hn) as [h [E [H F]]].
  rewrite E. cbn [bind]. destruct periodic; [| now exists h].
  unfold boundary_terms.
  change (need (sig (PyStr "x") true)) with (Ok (sigma_x (K:=K) true)).
  change (need (sig (PyStr "y") true)) with (Ok (sigma_y (K:=K) true)).
  change (need (sig (PyStr "z") true)) with (Ok (sigma_z (K:=K) true)).
  cbn [bind]. unfold add_all, site_dims. cbn [fold_left bind].
  destruct (madd_herm_sq _ _ _ H
              (boundary_term_herm_sq _ (Z.to_nat n) [0; n - 1] (sigma_x_herm_sq true)))
    as [h1 [E1 [H1 F1]]].
  rewrite E1. cbn [bind].
  destruct (madd_herm_sq _ _ _ H1
              (boundary_term_herm_sq _ (Z.to_nat n) [0; n - 1] (sigma_y_herm_sq true)))
    as [h2 [E2 [H2 F2]]].
  rewrite E2. cbn [bind].
  destruct (madd_herm_sq _ _ _ H2
              (boundary_term_herm_sq _ (Z.to_nat n) [0; n - 1] (sigma_z_herm_sq true)))
    as [h3 [E3 [H3 F3]]].
  rewrite E3. cbn [bind].
  exists h3. split; [reflexivity |]. split; [assumption |].
  rewrite F3. apply sum_fmt_sparse; [| now apply eyepad_fmt].
  rewrite F2. apply sum_fmt_sparse; [| now apply eyepad_fmt].
  rewrite F1. apply sum_fmt_sparse; [assumption | now apply eyepad_fmt].
Qed.

Lemma finish_herm_sq d sparse M : herm_sq d M -> herm_sq d (finish sparse M).
Proof. intros H. now destruct sparse. Qed.

Lemma ham_heis_sound (n : Z) (jx jy jz bz : K) (periodic sparse : bool) :
  1 <= n ->
  exists h, ham_heis n jx jy jz bz periodic sparse = Ok h
            /\ herm_sq (2 ^ Z.to_nat n) h /\ fmt h = storage_of sparse.
Proof.
  intros Hn. unfold ham_heis.
  destruct (accumulated_sound n jx jy jz bz periodic Hn) as [h [E [H F]]].
  rewrite E. cbn [bind]. eexists. split; [reflexivity |]. split.
  - now apply finish_herm_sq.
  - destruct sparse; [exact F | reflexivity].
Qed.

End Facts.

(** * The Heisenberg Hamiltonian *)

(** Evaluate the model, leaving the scalar operations alone. *)
Ltac run_model :=
  cbv - [carrier r0 r1 radd rmul rsub ropp RtoC c0 c1 cj cadd csub copp cmul].

(** Compare two evaluated results entry by entry: as complex numbers where
    that is enough, by real and imaginary part where [1j * 1j] matters. *)
Ltac same_entries :=
  repeat match goal with
         | |- Ok _ = Ok _ => apply (f_equal Ok)
         | |- mkM ?s _ = mkM ?s _ => apply (f_equal (mkM s))
         | |- cons _ _ = cons _ _ => apply (f_equal2 cons)
         | |- nil = nil => reflexivity
         end;
  rewrite ?RtoC_opp, ?RtoC_add, ?RtoC_sub;
  change (RtoC (K:=?K) r1) with (c1 (K:=K));
  change (RtoC (K:=?K) r0) with (c0 (K:=K));
  first [ ring
        | cbv [cadd csub cmul copp RtoC c0 c1 cj re im];
          apply (f_equal2 mkC); ring ].

Section Hamiltonian.

Context {K : RealRing}.

Add Ring Kring' : (Kth K).
Add Ring Cring : (@complex_th K).

(** C4: for every [n >= 1], all couplings and fields and both values of
    [periodic] and [sparse], [ham_heis] returns a matrix that equals its own
    conjugate transpose. *)
Theorem ham_heis_hermitian (n : Z) (jx jy jz bz : K) (periodic sparse : bool) :
  1 <= n ->
  exists h, ham_heis n jx jy jz bz periodic sparse = Ok h /\ Hermitian h.
Proof.
  intros Hn.
  destruct (ham_heis_sound n jx jy jz bz periodic sparse Hn) as [h [E [H _]]].
  exists h. split; [assumption |]. now apply (herm_sq_Hermitian (2 ^ Z.to_nat n)).
Qed.

(** C5: for every [n >= 1], all couplings and fields and both values of
    [periodic] and [sparse], [ham_heis] returns a matrix of [2 ^ n] rows of
    [2 ^ n] entries each. *)
Theorem ham_heis_dimension (n : Z) (jx jy jz bz : K) (periodic sparse : bool) :
  1 <= n ->
  exists h, ham_heis n jx jy jz bz periodic sparse = Ok h
            /\ shape h = (2 ^ Z.to_nat n, 2 ^ Z.to_nat n)%nat
            /\ Forall (fun row => length row = (2 ^ Z.to_nat n)%nat) (rows h).
Proof.
  intros Hn.
  destruct (ham_heis_sound n jx jy jz bz periodic sparse Hn) as [h [E [H _]]].
  exists h. split; [assumption |]. split.
  - now apply herm_sq_shape.
  - apply H.
Qed.

(** C6: for every [n >= 1] the accumulator is a sparse matrix whatever
    [sparse] is; the sparse output is that accumulator, the dense output is
    its densification, so the dense output is the densified sparse output. *)
Theorem ham_heis_dense_sparse (n : Z) (jx jy jz bz : K) (periodic : bool) :
  1 <= n ->
  exists acc, accumulated n jx jy jz bz periodic = Ok acc
              /\ fmt acc = Sparse
              /\ ham_heis n jx jy jz bz periodic true = Ok acc
              /\ ham_heis n jx jy jz bz periodic false = Ok (todense acc)
              /\ rows (todense acc) = rows acc.
Proof.
  intros Hn.
  destruct (accumulated_sound n jx jy jz bz periodic Hn) as [h [E [_ F]]].
  exists h. unfold ham_heis. rewrite E. now repeat split.
Qed.

(** C7: on a single site the open chain is the field term alone:
    [ham_heis(1, jx, jy, jz, bz)] is [-bz * Z], the matrix with [-bz] and
    [bz] on the diagonal. *)
Theorem ham_heis_one_site (jx jy jz bz : K) (sparse : bool) :
  ham_heis 1 jx jy jz bz false sparse = Ok (mscale (ropp bz) (sigma_z sparse))
  /\ rows (mscale (ropp bz) (sigma_z sparse))
     = [[RtoC (ropp bz); c0]; [c0; RtoC bz]].
Proof.
  split.
  - destruct sparse; run_model; same_entries.
  - run_model; same_entries.
Qed.

(** C3: on two sites the open chain is
    [jx * (X (x) X) + jy * (Y (x) Y) + jz * (Z (x) Z) - bz * (Z (x) I)
     - bz * (I (x) Z)]: both are the matrix written out below. *)
Theorem ham_heis_two_sites (jx jy jz bz : K) (sparse : bool) :
  let sX := sigma_x sparse in
  let sY := sigma_y sparse in
  let sZ := sigma_z sparse in
  let sI := sigma_i sparse in
  let m :=
    mkM (storage_of sparse)
        [[RtoC (rsub (rsub jz bz) bz); c0; c0; RtoC (rsub jx jy)];
         [c0; RtoC (ropp jz); RtoC (radd jx jy); c0];
         [c0; RtoC (radd jx jy); RtoC (ropp jz); c0];
         [RtoC (rsub jx jy); c0; c0; RtoC (radd (radd jz bz) bz)]] in
  ham_heis 2 jx jy jz bz false sparse = Ok m
  /\ (t1 <- madd (mscale jx (kron sX sX)) (mscale jy (kron sY sY)) ;;
      t2 <- madd t1 (mscale jz (kron sZ sZ)) ;;
      t3 <- msub t2 (mscale bz (kron sZ sI)) ;;
      msub t3 (mscale bz (kron sI sZ))) = Ok m.
Proof.
  destruct sparse; split; run_model; same_entries.
Qed.

(** C8: for three sites with unit couplings and no field, the periodic
    Hamiltonian minus the open one is [X I X + Y I Y + Z I Z], the coupling of
    sites 0 and 2 with the identity on site 1. *)
Theorem ham_heis_three_sites_ring (sparse : bool) :
  let sX := sigma_x (K:=K) sparse in
  let sY := sigma_y (K:=K) sparse in
  let sZ := sigma_z (K:=K) sparse in
  let sI := sigma_i (K:=K) sparse in
  exists d,
    (p <- ham_heis 3 r1 r1 r1 r0 true sparse ;;
     o <- ham_heis 3 r1 r1 r1 r0 false sparse ;;
     msub p o) = Ok d
    /\ (t <- madd (kron sX (kron sI sX)) (kron sY (kron sI sY)) ;;
        madd t (kron sZ (kron sI sZ))) = Ok d.
Proof.
  cbv zeta.
  destruct sparse; eexists;
    (split; [run_model; reflexivity | run_model; same_entries]).
Qed.

(** C2, as the code has it: for every [n >= 1] the three boundary terms are
    added exactly when [periodic] is true, whatever [n] is: the open chain is
    the accumulator of the loop, and the periodic chain is that accumulator
    plus the three terms. *)
Theorem boundary_added_iff_periodic (n : Z) (jx jy jz bz : K) (sparse : bool) :
  1 <= n ->
  exists h ts p,
    open_chain n jx jy jz bz = Ok h
    /\ boundary_terms n = Ok ts /\ length ts = 3%nat
    /\ add_all h ts = Ok p
    /\ ham_heis n jx jy jz bz false sparse = Ok (finish sparse h)
    /\ ham_heis n jx jy jz bz true sparse = Ok (finish sparse p).
Proof.
  intros Hn.
  destruct (open_chain_sound n jx jy jz bz Hn) as [h [E _]].
  destruct (accumulated_sound n jx jy jz bz true Hn) as [p [Ep _]].
  unfold ham_heis. rewrite Ep. unfold accumulated in *. rewrite E in *.
  cbn [bind] in *.
  destruct (boundary_terms (K:=K) n) as [ts|e] eqn:Ets; [| discriminate Ep].
  cbn [bind] in Ep.
  exists h, ts, p. repeat split; try assumption.
  unfold boundary_terms in Ets. cbn in Ets.
  injection Ets as <-. reflexivity.
Qed.

(** With the model of the helper in place of [pad], [ham_heis_with] is
    [ham_heis]. *)
Lemma ham_heis_with_eyepad (n : Z) (jx jy jz bz : K) (periodic sparse : bool) :
  ham_heis_with (fun a dims inds => Ok (eyepad a dims inds))
                n jx jy jz bz periodic sparse
  = ham_heis n jx jy jz bz periodic sparse.
Proof.
  unfold ham_heis_with, ham_heis, accumulated, open_chain_with, open_chain.
  destruct (sds_block jx jy jz bz) as [sds|e]; [| reflexivity]. cbn [bind].
  change (need (sig (PyStr "z") true)) with (Ok (sigma_z (K:=K) true)).
  cbn [bind].
  change (chain_step_with (fun a dims inds => Ok (eyepad a dims inds)) sds
                          (site_dims n))
    with (chain_step sds (site_dims n)).
  destruct (fold_left (chain_step sds (site_dims n)) (range (n - 1))
                      (Ok (eyepad (mscale (ropp bz) (sigma_z true))
                                  (site_dims n) [n - 1]))) as [h|e];
    [| reflexivity].
  cbn [bind]. destruct periodic; [| reflexivity].
  unfold add_boundary_with, boundary_terms, add_all.
  change (need (sig (PyStr "x") true)) with (Ok (sigma_x (K:=K) true)).
  change (need (sig (PyStr "y") true)) with (Ok (sigma_y (K:=K) true)).
  change (need (sig (PyStr "z") true)) with (Ok (sigma_z (K:=K) true)).
  cbn [bind fold_left].
  destruct (madd h (eyepad (sigma_x true) (site_dims n) [0; n - 1]))
    as [h1|e]; [| reflexivity]. cbn [bind].
  destruct (madd h1 (eyepad (sigma_y true) (site_dims n) [0; n - 1]))
    as [h2|e]; [| reflexivity]. cbn [bind].
  reflexivity.
Qed.


(** C10: an argument that equals none of the recognised values falls
    through every branch of [sig], which then returns [None]; the integer
    codes are 1 for X, 2 for Y, 3 for Z and 0 for the identity. *)
Theorem sig_falls_through (xyz : pyval) (sparse : bool) :
  py_in xyz recognized = false ->
  sig (K:=K) xyz sparse = None
  /\ sig (K:=K) (PyInt 1) sparse = Some (sigma_x sparse)
  /\ sig (K:=K) (PyInt 2) sparse = Some (sigma_y sparse)
  /\ sig (K:=K) (PyInt 3) sparse = Some (sigma_z sparse)
  /\ sig (K:=K) (PyInt 0) sparse = Some (sigma_i sparse).
Proof.
  intros H. split; [| repeat split; reflexivity].
  unfold recognized, py_in in H. cbn [existsb] in H.
  repeat (apply orb_false_elim in H; destruct H as [? H]).
  unfold sig, py_in. cbn [existsb].
  repeat match goal with E : py_eqb xyz _ = false |- _ => rewrite E; clear E end.
  reflexivity.
Qed.

End Hamiltonian.


(** * The model over the reals *)

(** With real couplings and a real field, [ham_heis] on [n >= 1] sites
    returns a square matrix of dimension [2 ^ n] whose entries mirror at the
    diagonal into their conjugates. *)
Corollary ham_heis_real_sound (n : Z) (jx jy jz bz : R) (periodic sparse : bool) :
  1 <= n ->
  exists h, ham_heis (K:=RRing) n jx jy jz bz periodic sparse = Ok h
            /\ herm_sq (2 ^ Z.to_nat n) h.
Proof.
  intros Hn.
  destruct (ham_heis_sound (K:=RRing) n jx jy jz bz periodic sparse Hn)
    as [h [E [H _]]].
  now exists h.
Qed.

(** * The model evaluated over the integers *)

(** C4 at three sites, periodic, dense. *)
Lemma ham_heis_hermitian_witness :
  1 <= 3 /\
  exists h, ham_heis (K:=ZRing) 3 1 1 1 0 true false = Ok h /\ Hermitian h.
Proof.
  split; [lia | apply (ham_heis_hermitian (K:=ZRing) 3 1 1 1 0 true false); lia].
Defined.

(** C5 at three sites, periodic, dense. *)
Lemma ham_heis_dimension_witness :
  1 <= 3 /\
  exists h, ham_heis (K:=ZRing) 3 1 1 1 0 true false = Ok h
            /\ shape h = (2 ^ Z.to_nat 3, 2 ^ Z.to_nat 3)%nat
            /\ Forall (fun row => length row = (2 ^ Z.to_nat 3)%nat) (rows h).
Proof.
  split; [lia | apply (ham_heis_dimension (K:=ZRing) 3 1 1 1 0 true false); lia].
Defined.

(** C6 at two sites, open. *)
Lemma ham_heis_dense_sparse_witness :
  1 <= 2 /\
  exists acc, accumulated (K:=ZRing) 2 1 1 1 5 false = Ok acc
              /\ fmt acc = Sparse
              /\ ham_heis (K:=ZRing) 2 1 1 1 5 false true = Ok acc
              /\ ham_heis (K:=ZRing) 2 1 1 1 5 false false = Ok (todense acc)
              /\ rows (todense acc) = rows acc.
Proof.
  split; [lia | apply (ham_heis_dense_sparse (K:=ZRing) 2 1 1 1 5 false); lia].
Defined.

(** C1: with [jx = 2] on three sites the source adds [X I X], [Y I Y] and
    [Z I Z] with unit coefficients; the first is not [2 * (X I X)], and the
    Hamiltonian is not the one with the coupled boundary terms. *)
Theorem boundary_terms_unit_coupling :
  let sX := sigma_x (K:=ZRing) true in
  let sY := sigma_y (K:=ZRing) true in
  let sZ := sigma_z (K:=ZRing) true in
  let sI := sigma_i (K:=ZRing) true in
  boundary_terms (K:=ZRing) 3
  = Ok [kron sX (kron sI sX); kron sY (kron sI sY); kron sZ (kron sI sZ)]
  /\ boundary_terms (K:=ZRing) 3 <> spec_boundary_terms (K:=ZRing) 3 2 1 1
  /\ ham_heis (K:=ZRing) 3 2 1 1 0 true false
     <> (h <- open_chain (K:=ZRing) 3 2 1 1 0 ;;
         ts <- spec_boundary_terms (K:=ZRing) 3 2 1 1 ;;
         p <- add_all h ts ;;
         Ok (finish false p)).
Proof.
  cbv zeta. split; [vm_compute; reflexivity |]. split; intros H.
  - apply (f_equal (fun r => match r with
                             | Ok (t :: _) => Some (entry (rows t) 0 5)
                             | _ => None
                             end)) in H.
    vm_compute in H. discriminate H.
  - apply (f_equal (fun r => match r with
                             | Ok m => Some (entry (rows m) 0 5)
                             | Raise _ => None
                             end)) in H.
    vm_compute in H. discriminate H.
Qed.

(** C2 fails at two sites: with [periodic] true the result is not the open
    chain, so boundary terms were added although [n <= 2]. *)
Lemma periodic_two_sites_adds_terms :
  ham_heis (K:=ZRing) 2 1 1 1 0 true false
  <> ham_heis (K:=ZRing) 2 1 1 1 0 false false.
Proof. intros H; vm_compute in H; discriminate H. Qed.

(** C2, as the code has it, at two sites. *)
Lemma boundary_added_iff_periodic_witness :
  1 <= 2 /\
  exists h ts p,
    open_chain (K:=ZRing) 2 1 1 1 0 = Ok h
    /\ boundary_terms 2 = Ok ts /\ length ts = 3%nat
    /\ add_all h ts = Ok p
    /\ ham_heis (K:=ZRing) 2 1 1 1 0 false false = Ok (finish false h)
    /\ ham_heis (K:=ZRing) 2 1 1 1 0 true false = Ok (finish false p).
Proof.
  split; [lia | apply (boundary_added_iff_periodic (K:=ZRing) 2 1 1 1 0 false); lia].
Defined.



(** C10 at [xyz = 4]. *)
Lemma sig_falls_through_witness :
  py_in (PyInt 4) recognized = false /\
  (sig (K:=ZRing) (PyInt 4) false = None
   /\ sig (K:=ZRing) (PyInt 1) false = Some (sigma_x false)
   /\ sig (K:=ZRing) (PyInt 2) false = Some (sigma_y false)
   /\ sig (K:=ZRing) (PyInt 3) false = Some (sigma_z false)
   /\ sig (K:=ZRing) (PyInt 0) false = Some (sigma_i false)).
Proof.
  split; [reflexivity | apply (sig_falls_through (K:=ZRing) (PyInt 4) false); reflexivity].
Defined.

(** * Basis vectors *)

Section VectorFacts.

Context {K : RealRing}.

Add Ring Kring_v : (Kth K).
Add Ring Cring_v : (@complex_th K).

(** ** Sums of complex numbers *)

Lemma csum_zero (f : nat -> complex K) (s n : nat) :
  (forall i, (s <= i < s + n)%nat -> f i = c0) ->
  csum (map f (seq s n)) = c0.
Proof.
  revert s. induction n as [|n IH]; intros s Hf; simpl; [reflexivity |].
  rewrite Hf by lia. rewrite IH by (intros i Hi; apply Hf; lia). ring.
Qed.

(** A sum with one term that is not zero. *)
Lemma csum_spike (f : nat -> complex K) (k : nat) : forall n s,
  (forall i, (s <= i < s + n)%nat -> i <> k -> f i = c0) ->
  (s <= k < s + n)%nat ->
  csum (map f (seq s n)) = f k.
Proof.
  induction n as [|n IH]; intros s Hf Hk; [lia |]. simpl.
  destruct (Nat.eq_dec s k) as [->|Hne].
  - rewrite csum_zero by (intros i Hi; apply Hf; lia). ring.
  - rewrite (Hf s) by (assumption || lia).
    rewrite IH by (try lia; intros i Hi; apply Hf; lia). ring.
Qed.

(** A sum with two terms that are not zero. *)
Lemma csum_two_spikes (f : nat -> complex K) (k1 k2 : nat) : forall n s,
  k1 <> k2 ->
  (forall i, i <> k1 -> i <> k2 -> f i = c0) ->
  (s <= k1 < s + n)%nat -> (s <= k2 < s + n)%nat ->
  csum (map f (seq s n)) = cadd (f k1) (f k2).
Proof.
  induction n as [|n IH]; intros s Hne Hf H1 H2; [lia |]. simpl.
  destruct (Nat.eq_dec s k1) as [->|N1].
  - rewrite (csum_spike f k2); [reflexivity | | lia].
    intros i Hi Hik. apply Hf; [lia | assumption].
  - destruct (Nat.eq_dec s k2) as [->|N2].
    + rewrite (csum_spike f k1); [ring | | lia].
      intros i Hi Hik. apply Hf; [assumption | lia].
    + rewrite (Hf s N1 N2), IH by (assumption || lia). ring.
Qed.

(** ** Assignment into an array of zeros *)

Lemma zero_rows_seq (k s n : nat) :
  (k < s)%nat ->
  repeat [c0 (K:=K)] n
  = map (fun i => [if (i =? k)%nat then c1 else c0]) (seq s n).
Proof.
  revert s. induction n as [|n IH]; intros s Hk; simpl; [reflexivity |].
  destruct (Nat.eqb_spec s k); [lia |]. f_equal. apply IH. lia.
Qed.

Lemma set_row_zeros (n : nat) : forall k s,
  set_row (repeat [c0 (K:=K)] n) k c1
  = map (fun i => [if (i =? s + k)%nat then c1 else c0]) (seq s n).
Proof.
  induction n as [|n IH]; intros k s; [now destruct k |].
  destruct k as [|k]; simpl.
  - rewrite Nat.add_0_r, Nat.eqb_refl. f_equal.
    rewrite (zero_rows_seq s (S s) n) by lia. reflexivity.
  - destruct (Nat.eqb_spec s (s + S k)); [lia |]. f_equal.
    rewrite (IH k (S s)). apply map_ext. intros i.
    now replace (S s + k)%nat with (s + S k)%nat by lia.
Qed.

(** The dense branch builds the indicator column of its index. *)
Lemma dense_column (n k : nat) :
  set_row (zeros (K:=K) n 1) k c1
  = build n 1 (fun i _ => if (i =? k)%nat then c1 else c0).
Proof. unfold zeros, build. simpl. now rewrite (set_row_zeros n k 0). Qed.

Lemma column_shape (n : nat) (f : nat -> nat -> complex K) :
  (0 < n)%nat -> nrows (build n 1 f) = n /\ ncols (build n 1 f) = 1%nat.
Proof.
  intros Hn. split; [apply build_length |].
  unfold ncols, build. destruct n; [lia | reflexivity].
Qed.

(** X1: for [0 <= dir < dim] the dense and the sparse branch of [basis_vec]
    return the same column of [dim] entries, in their own formats: [1] in row
    [dir] and [0] in every other row. *)
Theorem basis_vec_in_range (dir dim : Z) :
  0 <= dir < dim ->
  exists d s,
    basis_vec (K:=K) dir dim false = Done d
    /\ basis_vec (K:=K) dir dim true = Done s
    /\ fmt d = Dense /\ fmt s = Sparse
    /\ rows d = rows s
    /\ shape d = (Z.to_nat dim, 1%nat)
    /\ forall i, (i < Z.to_nat dim)%nat ->
                 entry (rows d) i 0
                 = if (i =? Z.to_nat dir)%nat then c1 else c0.
Proof.
  intros Hd. unfold basis_vec.
  assert (H1 : ((0 <=? dir) && (dir <? dim)) = true)
    by (apply andb_true_intro; split; [apply Z.leb_le | apply Z.ltb_lt]; lia).
  assert (H2 : ((- dim <=? dir) && (dir <? dim)) = true)
    by (apply andb_true_intro; split; [apply Z.leb_le | apply Z.ltb_lt]; lia).
  assert (H3 : (dim <? 0) = false) by (apply Z.ltb_ge; lia).
  assert (H4 : (dir <? 0) = false) by (apply Z.ltb_ge; lia).
  rewrite H1, H2, H3, H4. cbv zeta. rewrite dense_column.
  do 2 eexists. repeat split; try reflexivity.
  - unfold shape. simpl rows.
    destruct (column_shape (Z.to_nat dim)
                (fun i _ => if (i =? Z.to_nat dir)%nat then c1 else c0)) as [-> ->];
      [lia | reflexivity].
  - intros i Hi. simpl rows. now rewrite entry_build by lia.
Qed.

(** X2: the two branches disagree on a negative index: the dense branch
    counts [dir] in [-dim, 0) from the end and returns the vector of
    [dir + dim]; the sparse branch raises [ValueError]. *)
Theorem basis_vec_negative_index (dir dim : Z) :
  - dim <= dir < 0 ->
  (exists d, basis_vec (K:=K) dir dim false = Done d
             /\ basis_vec (K:=K) (dir + dim) dim false = Done d)
  /\ basis_vec (K:=K) dir dim true = Throw (Py ValueError).
Proof.
  intros Hd. unfold basis_vec.
  assert (H1 : ((0 <=? dir) && (dir <? dim)) = false)
    by (apply andb_false_iff; left; apply Z.leb_gt; lia).
  assert (H2 : ((- dim <=? dir) && (dir <? dim)) = true)
    by (apply andb_true_intro; split; [apply Z.leb_le | apply Z.ltb_lt]; lia).
  assert (H2' : ((- dim <=? dir + dim) && (dir + dim <? dim)) = true)
    by (apply andb_true_intro; split; [apply Z.leb_le | apply Z.ltb_lt]; lia).
  assert (H3 : (dim <? 0) = false) by (apply Z.ltb_ge; lia).
  assert (H4 : (dir <? 0) = true) by (apply Z.ltb_lt; lia).
  assert (H4' : (dir + dim <? 0) = false) by (apply Z.ltb_ge; lia).
  assert (H5 : ((- dim <=? dir) && (dir <? 0)) = true)
    by (apply andb_true_intro; split; [apply Z.leb_le | apply Z.ltb_lt]; lia).
  rewrite H1, H5, H2, H2', H3, H4, H4'. split; [| reflexivity].
  eexists. split; reflexivity.
Qed.

(** X4: basis vectors of one dimension are orthonormal: the product of the
    conjugate transpose of one with another is the 1 by 1 matrix holding [1]
    when the indices agree and [0] otherwise. *)
Theorem basis_vec_orthonormal (a b dim : Z) (sa sb : bool) :
  0 <= a < dim -> 0 <= b < dim ->
  exists u v g,
    basis_vec (K:=K) a dim sa = Done u
    /\ basis_vec (K:=K) b dim sb = Done v
    /\ mmul (dagger u) v = Ok g
    /\ rows g = [[if a =? b then c1 else c0]].
Proof.
  intros Ha Hb.
  destruct (basis_vec_in_range a dim Ha)
    as [ud [us [Eud [Eus [_ [_ [Eu [Su Hu]]]]]]]].
  destruct (basis_vec_in_range b dim Hb)
    as [vd [vs [Evd [Evs [_ [_ [Ev [Sv Hv]]]]]]]].
  assert (Hgen : forall u v : matrix K,
             rows u = rows ud -> rows v = rows vd ->
             exists g, mmul (dagger u) v = Ok g
                       /\ rows g = [[if a =? b then c1 else c0]]).
  { intros u v Ru Rv. unfold mmul, dagger. simpl rows. rewrite Ru, Rv.
    unfold shape in Su, Sv. injection Su as Su1 Su2. injection Sv as Sv1 Sv2.
    rewrite Su1, Su2, Sv1, Sv2.
    assert (Hc : ncols (build 1 (Z.to_nat dim)
                          (fun i j => cconj (entry (rows ud) j i)))
                 = Z.to_nat dim) by (unfold ncols, build; simpl;
                                     now rewrite length_map, length_seq).
    rewrite Hc, Nat.eqb_refl. eexists. split; [reflexivity |]. simpl rows.
    unfold build at 1. simpl. do 2 f_equal.
    assert (Hs : forall k, (k < Z.to_nat dim)%nat ->
               cmul (entry (build 1 (Z.to_nat dim)
                              (fun i j => cconj (entry (rows ud) j i))) 0 k)
                    (entry (rows vd) k 0)
               = if (k =? Z.to_nat a)%nat
                 then (if (k =? Z.to_nat b)%nat then c1 else c0) else c0).
    { intros k Hk. rewrite entry_build, Hu, Hv by lia.
      destruct (k =? Z.to_nat a)%nat, (k =? Z.to_nat b)%nat;
        unfold cconj, cmul, c1, c0, RtoC; simpl; f_equal; ring. }
    rewrite (map_ext_in _ (fun k => if (k =? Z.to_nat a)%nat
                                    then (if (k =? Z.to_nat b)%nat then c1 else c0)
                                    else c0))
      by (intros k Hk; apply in_seq in Hk; apply Hs; lia).
    rewrite (csum_spike _ (Z.to_nat a)); [| | lia].
    - rewrite Nat.eqb_refl.
      destruct (Z.eqb_spec a b) as [->|Hne]; [now rewrite Nat.eqb_refl |].
      destruct (Nat.eqb_spec (Z.to_nat a) (Z.to_nat b)); [lia | reflexivity].
    - intros i _ Hi. destruct (Nat.eqb_spec i (Z.to_nat a)); [contradiction | reflexivity]. }
  destruct sa, sb.
  - destruct (Hgen us vs (eq_sym Eu) (eq_sym Ev)) as [g Hg]. now exists us, vs, g.
  - destruct (Hgen us vd (eq_sym Eu) eq_refl) as [g Hg]. now exists us, vd, g.
  - destruct (Hgen ud vs eq_refl (eq_sym Ev)) as [g Hg]. now exists ud, vs, g.
  - destruct (Hgen ud vd eq_refl eq_refl) as [g Hg]. now exists ud, vd, g.
Qed.

End VectorFacts.

(** * More on [sig] and [ham_heis] *)

Section Couplings.

Context {K : RealRing}.

Add Ring Kring_c : (Kth K).
Add Ring Cring_c : (@complex_th K).

(** X5: whatever [sig] returns is a 2 by 2 matrix in the requested format
    that equals its conjugate transpose and squares to the identity. *)
Theorem sig_hermitian_involution (xyz : pyval) (sparse : bool) (m : matrix K) :
  sig xyz sparse = Some m ->
  shape m = (2%nat, 2%nat) /\ fmt m = storage_of sparse /\ Hermitian m
  /\ exists g, mmul m m = Ok g /\ rows g = [[c1; c0]; [c0; c1]].
Proof.
  unfold sig. intros H.
  destruct (py_in xyz [PyInt 1; PyStr "x"; PyStr "X"]);
    [| destruct (py_in xyz [PyInt 2; PyStr "y"; PyStr "Y"]);
       [| destruct (py_in xyz [PyInt 3; PyStr "z"; PyStr "Z"]);
          [| destruct (py_in xyz [PyInt 0; PyStr "i"; PyStr "I"]);
             [| discriminate H]]]];
    injection H as <-;
    (split; [reflexivity |]); (split; [reflexivity |]);
    (split; [unfold Hermitian; destruct sparse; run_model; same_entries |]);
    eexists; (split; [reflexivity |]); run_model; same_entries.
Qed.

(** X6: on two sites the periodic branch counts the one pair again, with
    unit couplings: the periodic Hamiltonian of [jx], [jy], [jz] is the open
    one of [jx + 1], [jy + 1], [jz + 1]. *)
Theorem ham_heis_two_sites_periodic (jx jy jz bz : K) (sparse : bool) :
  exists m,
    ham_heis 2 jx jy jz bz true sparse = Ok m
    /\ ham_heis 2 (radd jx r1) (radd jy r1) (radd jz r1) bz false sparse = Ok m.
Proof.
  destruct sparse; eexists;
    (split; [run_model; reflexivity | run_model; same_entries]).
Qed.

End Couplings.

(** * Scaling the couplings *)

Section Scaling.

Context {K : RealRing}.

Add Ring Kring_s : (Kth K).
Add Ring Cring_s : (@complex_th K).

Variable a : K.

Lemma scaled_by_cast d d' (M M' : matrix K) :
  d = d' -> scaled_by a d M M' -> scaled_by a d' M M'.
Proof. now intros ->. Qed.

Lemma scaled_by_mscale d (M : matrix K) :
  square d (rows M) -> scaled_by a d M (mscale a M).
Proof.
  intros Hs. unfold scaled_by, mscale. simpl.
  rewrite (square_nrows d), (square_ncols d) by assumption.
  split; [assumption |]. split; [apply square_build |].
  split; [reflexivity |].
  intros i j Hi Hj. now rewrite entry_build.
Qed.

(** Entries decide: a scaled copy is [mscale]. *)
Lemma scaled_by_eq d (M M' : matrix K) :
  scaled_by a d M M' -> M' = mscale a M.
Proof.
  intros [HM [HM' [HF HE]]]. destruct M as [f A], M' as [f' A'].
  unfold mscale. simpl in *. subst f'. f_equal.
  rewrite (square_nrows d), (square_ncols d) by assumption.
  apply (square_ext d); [assumption | apply square_build |].
  intros i j Hi Hj. rewrite entry_build by assumption. now apply HE.
Qed.

Lemma kron_square dA dB (M N : matrix K) :
  square dA (rows M) -> square dB (rows N) -> square (dA * dB) (rows (kron M N)).
Proof.
  intros HM HN. unfold kron. simpl.
  rewrite (square_nrows dA (rows M)), (square_ncols dA (rows M)),
    (square_nrows dB (rows N)), (square_ncols dB (rows N)) by assumption.
  apply square_build.
Qed.

Lemma entry_kron dA dB (M N : matrix K) i j :
  square dA (rows M) -> square dB (rows N) ->
  (i < dA * dB)%nat -> (j < dA * dB)%nat ->
  entry (rows (kron M N)) i j
  = cmul (entry (rows M) (i / dB) (j / dB)) (entry (rows N) (i mod dB) (j mod dB)).
Proof.
  intros HM HN Hi Hj. unfold kron. simpl.
  rewrite (square_nrows dA (rows M)), (square_ncols dA (rows M)),
    (square_nrows dB (rows N)), (square_ncols dB (rows N)) by assumption.
  now rewrite entry_build.
Qed.

Lemma kron_fmt_eq (M M' N N' : matrix K) :
  fmt M = fmt M' -> fmt N = fmt N' -> fmt (kron M N) = fmt (kron M' N').
Proof. intros HM HN. unfold kron, issparse. simpl. now rewrite HM, HN. Qed.

Lemma kron_scaled_r dA dB (B M M' : matrix K) :
  square dA (rows B) -> scaled_by a dB M M' ->
  scaled_by a (dA * dB) (kron B M) (kron B M').
Proof.
  intros HB [HM [HM' [HF HE]]].
  split; [now apply kron_square |]. split; [now apply kron_square |].
  split; [now apply kron_fmt_eq |].
  intros i j Hi Hj. rewrite !(entry_kron dA dB) by assumption.
  assert (HdB : dB <> 0%nat) by (intros ->; lia).
  rewrite HE by (now apply Nat.mod_upper_bound). ring.
Qed.

Lemma kron_scaled_l dA dB (B M M' : matrix K) :
  scaled_by a dA M M' -> square dB (rows B) ->
  scaled_by a (dA * dB) (kron M B) (kron M' B).
Proof.
  intros [HM [HM' [HF HE]]] HB.
  split; [now apply kron_square |]. split; [now apply kron_square |].
  split; [now apply kron_fmt_eq |].
  intros i j Hi Hj. rewrite !(entry_kron dA dB) by assumption.
  rewrite HE by (apply Nat.Div0.div_lt_upper_bound; lia). ring.
Qed.

Lemma eye_square d s : square d (rows (eye (K:=K) d s)).
Proof. apply square_build. Qed.

Lemma issparse_fmt_eq (M M' : matrix K) : fmt M = fmt M' -> issparse M = issparse M'.
Proof. unfold issparse. now intros ->. Qed.

(** After the block every factor is an identity. *)
Lemma eyepad_from_scaled_rest (M M' : matrix K) inds : forall m k b b' s,
  fmt M = fmt M' ->
  (forall j, (k <= j < k + m)%nat -> at_site j inds = false) ->
  scaled_by a s b b' ->
  scaled_by a (s * 2 ^ m)
            (eyepad_from k M (repeat 2%nat m) inds b)
            (eyepad_from k M' (repeat 2%nat m) inds b').
Proof.
  induction m as [|m IH]; intros k b b' s HF Hno Hb; cbn [repeat eyepad_from].
  - apply (scaled_by_cast s); [simpl; lia | assumption].
  - rewrite (Hno k) by lia. rewrite <- (issparse_fmt_eq M M' HF).
    apply (scaled_by_cast (s * 2 * 2 ^ m)); [simpl; lia |].
    apply IH; [assumption | intros j Hj; apply Hno; lia |].
    apply kron_scaled_l; [assumption | apply eye_square].
Qed.

(** Before the block the two accumulators are the same. *)
Lemma eyepad_from_scaled_one (M M' : matrix K) da i : forall m k b s,
  scaled_by a da M M' -> square s (rows b) -> (k <= i < k + m)%nat ->
  scaled_by a (s * da * 2 ^ (m - 1))
            (eyepad_from k M (repeat 2%nat m) [Z.of_nat i] b)
            (eyepad_from k M' (repeat 2%nat m) [Z.of_nat i] b).
Proof.
  induction m as [|m IH]; intros k b s HM Hb Hi; [lia |].
  cbn [repeat eyepad_from]. rewrite at_site_single.
  replace (S m - 1)%nat with m by lia.
  assert (HF : fmt M = fmt M') by apply HM.
  destruct (Nat.eqb_spec k i) as [->|Hne].
  - apply eyepad_from_scaled_rest; [assumption | |].
    + intros j Hj. rewrite at_site_single. apply Nat.eqb_neq. lia.
    + now apply kron_scaled_r.
  - destruct m as [|m]; [lia |].
    rewrite <- (issparse_fmt_eq M M' HF).
    apply (scaled_by_cast (s * 2 * da * 2 ^ (S m - 1))).
    + replace (S m - 1)%nat with m by lia. simpl. lia.
    + apply IH; [assumption | | lia].
      apply (kron_square s 2); [assumption | apply eye_square].
Qed.

Lemma madd_scaled d (M M' N N' : matrix K) :
  scaled_by a d M M' -> scaled_by a d N N' ->
  exists S S', madd M N = Ok S /\ madd M' N' = Ok S' /\ scaled_by a d S S'.
Proof.
  intros [HM [HM' [FM EM]]] [HN [HN' [FN EN]]]. unfold madd.
  rewrite !(shape_eqb_square d) by assumption.
  rewrite (square_nrows d (rows M)), (square_ncols d (rows M)),
    (square_nrows d (rows M')), (square_ncols d (rows M')) by assumption.
  do 2 eexists. split; [reflexivity |]. split; [reflexivity |].
  split; [apply square_build |]. split; [apply square_build |]. split.
  - simpl. unfold sum_fmt, issparse. now rewrite FM, FN.
  - intros i j Hi Hj. simpl. rewrite !entry_build by assumption.
    rewrite EM, EN by assumption. ring.
Qed.

Lemma sds_block_scaled (jx jy jz bz : K) :
  exists s s', sds_block jx jy jz bz = Ok s
               /\ sds_block (rmul a jx) (rmul a jy) (rmul a jz) (rmul a bz) = Ok s'
               /\ scaled_by a 4 s s'.
Proof.
  destruct (sds_block_sound jx jy jz bz) as [s [Es [[Hs _] _]]].
  exists s, (mscale a s). split; [assumption |]. split.
  - revert Es. run_model. intros Es. injection Es as <-. cbn.
    same_entries.
  - now apply scaled_by_mscale.
Qed.

Lemma eyepad_scaled_one (M M' : matrix K) da m i :
  scaled_by a da M M' -> (i < m)%nat ->
  scaled_by a (da * 2 ^ (m - 1))
            (eyepad M (repeat 2%nat m) [Z.of_nat i])
            (eyepad M' (repeat 2%nat m) [Z.of_nat i]).
Proof.
  intros HM Hi. unfold eyepad.
  rewrite <- (issparse_fmt_eq M M') by apply HM.
  apply (scaled_by_cast (1 * da * 2 ^ (m - 1))); [lia |].
  apply eyepad_from_scaled_one; [assumption | apply eye_square | lia].
Qed.

Lemma chain_loop_scaled (s s' : matrix K) (N : nat) :
  scaled_by a 4 s s' ->
  forall (l : list nat) h h',
    (forall i, In i l -> (i + 1 < N)%nat) ->
    scaled_by a (2 ^ N) h h' ->
    exists g g',
      fold_left (chain_step s (repeat 2%nat N)) (map Z.of_nat l) (Ok h) = Ok g
      /\ fold_left (chain_step s' (repeat 2%nat N)) (map Z.of_nat l) (Ok h') = Ok g'
      /\ scaled_by a (2 ^ N) g g'.
Proof.
  intros Hs. induction l as [|i l IH]; intros h h' Hl Hh; cbn [map fold_left].
  - now exists h, h'.
  - assert (Hi : (i + 1 < N)%nat) by (apply Hl; now left).
    assert (Hterm : scaled_by a (2 ^ N)
                      (eyepad s (removelast (repeat 2%nat N)) [Z.of_nat i])
                      (eyepad s' (removelast (repeat 2%nat N)) [Z.of_nat i])).
    { rewrite removelast_repeat.
      apply (scaled_by_cast (4 * 2 ^ (N - 1 - 1))).
      - destruct N as [|[|N]]; try lia.
        replace (S (S N) - 1 - 1)%nat with N by lia. simpl. lia.
      - apply eyepad_scaled_one; [assumption | lia]. }
    destruct (madd_scaled _ _ _ _ _ Hh Hterm) as [g [g' [E [E' Hg]]]].
    rewrite !chain_step_ok, E, E'.
    apply IH; [intros j Hj; apply Hl; now right | assumption].
Qed.

Lemma field_term_scaled (bz : K) :
  mscale (ropp (rmul a bz)) (sigma_z true)
  = mscale a (mscale (ropp bz) (sigma_z (K:=K) true)).
Proof. run_model. same_entries. Qed.

Lemma finish_scaled d sparse (M M' : matrix K) :
  scaled_by a d M M' -> scaled_by a d (finish sparse M) (finish sparse M').
Proof.
  intros H. destruct sparse; simpl; [exact H |].
  destruct H as [HM [HM' [HF HE]]].
  split; [assumption |]. split; [assumption |]. split; [reflexivity | assumption].
Qed.

(** X7: the open chain is homogeneous in its couplings and field: for every
    [n >= 1], multiplying [jx], [jy], [jz] and [bz] by a real number [a]
    multiplies the Hamiltonian by [a]. *)
Theorem ham_heis_open_homogeneous (n : Z) (jx jy jz bz : K) (sparse : bool) :
  1 <= n ->
  exists h,
    ham_heis n jx jy jz bz false sparse = Ok h
    /\ ham_heis n (rmul a jx) (rmul a jy) (rmul a jz) (rmul a bz) false sparse
       = Ok (mscale a h).
Proof.
  intros Hn. unfold ham_heis, accumulated, open_chain.
  destruct (sds_block_scaled jx jy jz bz) as [s [s' [Es [Es' Hs]]]].
  rewrite Es, Es'. cbn [bind].
  change (need (sig (PyStr "z") true)) with (Ok (sigma_z (K:=K) true)).
  cbn [bind]. unfold range, site_dims. rewrite field_term_scaled.
  set (N := Z.to_nat n).
  replace (Z.to_nat (n - 1)) with (N - 1)%nat by (unfold N; lia).
  replace (n - 1) with (Z.of_nat (N - 1)) by (unfold N; lia).
  assert (H0 : scaled_by a (2 ^ N)
                 (eyepad (mscale (ropp bz) (sigma_z true)) (repeat 2%nat N)
                         [Z.of_nat (N - 1)])
                 (eyepad (mscale a (mscale (ropp bz) (sigma_z true)))
                         (repeat 2%nat N) [Z.of_nat (N - 1)])).
  { apply (scaled_by_cast (2 * 2 ^ (N - 1))).
    - unfold N. destruct (Z.to_nat n) as [|k] eqn:E; [lia |].
      replace (S k - 1)%nat with k by lia. simpl. lia.
    - apply eyepad_scaled_one; [| unfold N; lia].
      apply scaled_by_mscale. apply mscale_herm_sq, sigma_z_herm_sq. }
  destruct (chain_loop_scaled s s' N Hs (seq 0 (N - 1)) _ _
              (fun i Hi => ltac:(apply in_seq in Hi; lia)) H0)
    as [g [g' [E [E' Hg]]]].
  rewrite E, E'. cbn [bind].
  exists (finish sparse g). split; [reflexivity |].
  f_equal. apply (scaled_by_eq (2 ^ N)). now apply finish_scaled.
Qed.

End Scaling.

(** * Bell, Bloch and Werner states *)

(** Evaluate a state constructor, leaving the scalar operations and
    [2.0 ** 0.5] alone. *)
Ltac run_states :=
  cbv - [carrier scalars r0 r1 radd rmul rsub ropp rdiv rinv rsqrt root2].

Section StateFacts.

Context {F : RealField}.

Add Field Ffield : (Fth F).

Lemma root2_sq : rmul (root2 (F:=F)) root2 = radd r1 r1.
Proof.
  unfold root2.
  replace (radd (r1 (r:=F)) r1)
    with (radd (radd (rmul (r1 (r:=F)) r1) (rmul r1 r1)) (rmul r0 r0))
    at 1 2 by ring.
  rewrite rsqrt_sq. ring.
Qed.

Lemma root2_neq_0 : root2 (F:=F) <> r0.
Proof. intros H. apply (two_neq_0 F). rewrite <- root2_sq, H. ring. Qed.

Lemma four_neq_0 : four (F:=F) <> r0.
Proof.
  intros H. apply (two_neq_0 F).
  assert (E : radd (r1 (r:=F)) r1 = rmul four (rdiv r1 (radd r1 r1))).
  { unfold four. field. exact (two_neq_0 F). }
  rewrite E, H. ring.
Qed.

Lemma mul_neq_0 (x y : F) : x <> r0 -> y <> r0 -> rmul x y <> r0.
Proof.
  intros Hx Hy H. apply Hx.
  assert (E : x = rmul (rmul x y) (rdiv r1 y)) by (field; assumption).
  rewrite E, H. ring.
Qed.

End StateFacts.

(** The side conditions [field] leaves: [2], [4], [2.0 ** 0.5] and their
    products are not zero. *)
Ltac nonzero1 :=
  first [ exact (two_neq_0 _) | exact (@root2_neq_0 _) | exact (@four_neq_0 _)
        | assumption
        | apply (@mul_neq_0 _); nonzero1 ].

Ltac nonzero := repeat split; nonzero1.

(** Compare evaluated results by real and imaginary part, as field
    equations in which [2.0 ** 0.5] squares to [2]. *)
Ltac same_parts :=
  repeat match goal with
         | |- Ok _ = Ok _ => apply (f_equal Ok)
         | |- Some _ = Some _ => apply (f_equal Some)
         | |- Finite _ = Finite _ => apply (f_equal Finite)
         | |- mkM ?s _ = mkM ?s _ => apply (f_equal (mkM s))
         | |- cons _ _ = cons _ _ => apply (f_equal2 cons)
         | |- nil = nil => reflexivity
         | |- mkC _ _ = mkC _ _ => apply (f_equal2 mkC)
         end;
  try match goal with
      | |- @eq (carrier (scalars ?F)) _ _ => field [(@root2_sq F)]; nonzero
      end.

Section BellBlochWerner.

Context {F : RealField}.

Add Field Ffield' : (Fth F).

(** X8: an argument that equals none of the codes and names falls through
    every branch of [bell_state], which returns [None]; each name gives the
    state of its code, and [singlet] is the state of code 3. *)
Theorem bell_state_falls_through (s : pyval) :
  py_in s bell_names = false ->
  bell_state (F:=F) s = None
  /\ bell_state (F:=F) (PyStr "phip") = bell_state (PyInt 0)
  /\ bell_state (F:=F) (PyStr "phim") = bell_state (PyInt 1)
  /\ bell_state (F:=F) (PyStr "psip") = bell_state (PyInt 2)
  /\ bell_state (F:=F) (PyStr "psim") = bell_state (PyInt 3)
  /\ singlet (F:=F) = bell_state (PyStr "psim").
Proof.
  intros H. split; [| repeat split; reflexivity].
  unfold bell_names, py_in in H. cbn [existsb] in H.
  repeat (apply orb_false_elim in H; destruct H as [? H]).
  unfold bell_state, py_in. cbn [existsb].
  repeat match goal with E : py_eqb s _ = false |- _ => rewrite E; clear E end.
  reflexivity.
Qed.

(** X9: the four Bell states are orthonormal: for codes [a] and [b] in 0..3
    the product of the conjugate transpose of one state with the other is the
    1 by 1 matrix holding [1] when [a = b] and [0] otherwise. *)
Theorem bell_state_orthonormal (a b : Z) :
  0 <= a <= 3 -> 0 <= b <= 3 ->
  exists u v g,
    bell_state (F:=F) (PyInt a) = Some u
    /\ bell_state (F:=F) (PyInt b) = Some v
    /\ shape u = (4%nat, 1%nat)
    /\ mmul (dagger u) v = Ok g
    /\ rows g = [[if a =? b then c1 else c0]].
Proof.
  intros Ha Hb.
  assert (Ea : a = 0 \/ a = 1 \/ a = 2 \/ a = 3) by lia.
  assert (Eb : b = 0 \/ b = 1 \/ b = 2 \/ b = 3) by lia.
  destruct Ea as [->|[->|[->| ->]]]; destruct Eb as [->|[->|[->| ->]]];
    do 3 eexists;
    (split; [reflexivity |]); (split; [reflexivity |]);
    (split; [reflexivity |]); (split; [reflexivity |]);
    run_states; same_parts.
Qed.

(** X10: without [purify], [bloch_state] returns the density matrix of the
    Bloch vector: [(1 + az) / 2] and [(1 - az) / 2] on the diagonal,
    [(ax - 1j * ay) / 2] and its conjugate beside it.  It is stored as
    [sparse] asks, equals its conjugate transpose and has trace [1]. *)
Theorem bloch_state_density
        (normalize : F -> F -> F -> attempt (floats (F * F * F)))
        (ax ay az : F) (sparse : bool) :
  exists m,
    bloch_state normalize ax ay az false sparse = Done (Finite m)
    /\ fmt m = storage_of sparse
    /\ rows m
       = [[mkC (rmul half (radd r1 az)) r0;
           mkC (rmul half ax) (ropp (rmul half ay))];
          [mkC (rmul half ax) (rmul half ay);
           mkC (rmul half (rsub r1 az)) r0]]
    /\ Hermitian m /\ trace m = c1.
Proof.
  destruct sparse; eexists;
    (split; [run_states; reflexivity |]);
    (split; [reflexivity |]);
    (split; [run_states; same_parts |]);
    (split; [unfold Hermitian | ]; run_states; same_parts).
Qed.

(** X11: the state of a vector of length [1] is pure: for
    [ax * ax + ay * ay + az * az = 1], the matrix [bloch_state] returns
    without [purify] times itself is that matrix again. *)
Theorem bloch_state_unit_pure
        (normalize : F -> F -> F -> attempt (floats (F * F * F)))
        (ax ay az : F) (sparse : bool) :
  radd (radd (rmul ax ax) (rmul ay ay)) (rmul az az) = r1 ->
  exists m g,
    bloch_state normalize ax ay az false sparse = Done (Finite m)
    /\ mmul m m = Ok g /\ rows g = rows m.
Proof.
  intros Hu.
  assert (Hz : rmul az az = rsub (rsub r1 (rmul ax ax)) (rmul ay ay))
    by (rewrite <- Hu; ring).
  destruct sparse; do 2 eexists;
    (split; [run_states; reflexivity |]);
    (split; [run_states; reflexivity |]);
    run_states;
    repeat match goal with
           | |- cons _ _ = cons _ _ => apply (f_equal2 cons)
           | |- nil = nil => reflexivity
           | |- mkC _ _ = mkC _ _ => apply (f_equal2 mkC)
           end;
    field [Hz]; nonzero.
Qed.

(** X13: for every real [p], [werner_state(p)] is the dense 4 by 4 matrix
    with [(1 - p) / 4] in the corners of the diagonal, [p / 2 + (1 - p) / 4]
    in its middle and [- p / 2] beside the middle; it equals its conjugate
    transpose and has trace [1]. *)
Theorem werner_state_density (p : F) :
  let q := RtoC (rdiv (rsub r1 p) four) in
  let d := RtoC (radd (rdiv p (radd r1 r1)) (rdiv (rsub r1 p) four)) in
  let o := RtoC (ropp (rdiv p (radd r1 r1))) in
  exists m,
    werner_state p = Ok m
    /\ fmt m = Dense
    /\ rows m = [[q; c0; c0; c0]; [c0; d; o; c0]; [c0; o; d; c0]; [c0; c0; c0; q]]
    /\ Hermitian m /\ trace m = c1.
Proof.
  cbv zeta. eexists.
  split; [run_states; reflexivity |].
  split; [reflexivity |].
  split; [run_states; same_parts |].
  split; [unfold Hermitian | ]; run_states; same_parts.
Qed.

End BellBlochWerner.

(** * The GHZ state *)

Section Ghz.

Context {F : RealField}.

Add Field Ffield_g : (Fth F).

(** The squared length of a column: the one entry of its conjugate
    transpose times itself. *)
Lemma column_norm (m : matrix F) (D : nat) (e : nat -> complex F) :
  (0 < D)%nat ->
  nrows (rows m) = D -> ncols (rows m) = 1%nat ->
  (forall i, (i < D)%nat -> entry (rows m) i 0 = e i) ->
  exists g, mmul (dagger m) m = Ok g
            /\ rows g = [[csum (map (fun k => cmul (cconj (e k)) (e k)) (seq 0 D))]].
Proof.
  intros HD Hr Hc He. unfold mmul, dagger. simpl rows. rewrite Hr, Hc.
  assert (Hd : ncols (build 1 D (fun i j => cconj (entry (rows m) j i))) = D)
    by (unfold ncols, build; simpl; now rewrite length_map, length_seq).
  rewrite Hd, Nat.eqb_refl. eexists. split; [reflexivity |].
  simpl rows. unfold build at 1. simpl. do 2 f_equal.
  apply (f_equal csum), map_ext_in. intros k Hk. apply in_seq in Hk.
  now rewrite entry_build, He by lia.
Qed.

(** X14: for [n >= 1], [ghz_state(n)] is a column of [2 ^ n] entries with
    [1 / 2.0 ** 0.5] in the first and in the last row and [0] between them,
    and it has length [1]. *)
Theorem ghz_state_entries (n : Z) :
  1 <= n ->
  let D := Z.to_nat (2 ^ n) in
  exists m g,
    ghz_state (F:=F) n = Done m
    /\ shape m = (D, 1%nat)
    /\ (forall i, (i < D)%nat ->
                  entry (rows m) i 0
                  = if ((i =? 0) || (i =? D - 1))%nat
                    then RtoC (rdiv r1 root2) else c0)
    /\ mmul (dagger m) m = Ok g
    /\ rows g = [[c1]].
Proof.
  intros Hn D.
  assert (H2 : 2 <= 2 ^ n).
  { change 2 with (2 ^ 1) at 1. apply Z.pow_le_mono_r; lia. }
  assert (HD : (2 <= D)%nat) by (unfold D; lia).
  destruct (basis_vec_in_range (K:=F) 0 (2 ^ n))
    as [u [_ [Eu [_ [_ [_ [_ [Su Hu]]]]]]]]; [lia |].
  destruct (basis_vec_in_range (K:=F) (2 ^ n - 1) (2 ^ n))
    as [v [_ [Ev [_ [_ [_ [_ [Sv Hv]]]]]]]]; [lia |].
  fold D in Su, Sv, Hu, Hv.
  replace (Z.to_nat (2 ^ n - 1)) with (D - 1)%nat in Hv by (unfold D; lia).
  change (Z.to_nat 0) with 0%nat in Hu.
  unfold shape in Su, Sv. injection Su as Su1 Su2. injection Sv as Sv1 Sv2.
  set (e := fun i : nat =>
              if ((i =? 0) || (i =? D - 1))%nat
              then RtoC (rdiv (r1 (r:=F)) root2) else c0).
  set (m := mdivr (mkM (sum_fmt u v)
                       (build D 1 (fun i j => cadd (entry (rows u) i j)
                                                   (entry (rows v) i j))))
                  root2).
  assert (Em : ghz_state (F:=F) n = Done m).
  { unfold ghz_state. replace (n <? 0) with false by (symmetry; apply Z.ltb_ge; lia).
    cbv zeta. rewrite Eu, Ev. unfold madd, shape_eqb.
    rewrite Su1, Su2, Sv1, Sv2, !Nat.eqb_refl. reflexivity. }
  destruct (column_shape (K:=F) D
              (fun i j => cadd (entry (rows u) i j) (entry (rows v) i j)))
    as [Hr Hc]; [lia |].
  assert (Hrm : nrows (rows m) = D)
    by (unfold m, mdivr; simpl rows; rewrite Hr, Hc; apply build_length).
  assert (Hcm : ncols (rows m) = 1%nat).
  { unfold m, mdivr. simpl rows. rewrite Hr, Hc.
    apply (column_shape (K:=F)). lia. }
  assert (Hem : forall i, (i < D)%nat -> entry (rows m) i 0 = e i).
  { intros i Hi. unfold m, mdivr, e. simpl rows. rewrite Hr, Hc.
    rewrite !entry_build, Hu, Hv by lia.
    destruct (Nat.eqb_spec i 0) as [E0|N0];
      destruct (Nat.eqb_spec i (D - 1)) as [E1|N1]; try lia;
      run_states; same_parts. }
  destruct (column_norm m D e) as [g [Eg Rg]]; try assumption; [lia |].
  exists m, g. split; [assumption |]. split; [unfold shape; now rewrite Hrm, Hcm |].
  split; [assumption |]. split; [assumption |].
  rewrite Rg. do 2 f_equal.
  rewrite (csum_two_spikes _ 0 (D - 1)); try lia.
  - unfold e. rewrite Nat.eqb_refl, (Nat.eqb_refl (D - 1)), orb_true_r. simpl orb.
    run_states; same_parts.
  - intros i N0 N1. unfold e.
    destruct (Nat.eqb_spec i 0); [contradiction |].
    destruct (Nat.eqb_spec i (D - 1)); [contradiction |].
    run_states; same_parts.
Qed.

End Ghz.

(** * The added properties at concrete inputs *)

(** X1 at index 1 of dimension 3. *)
Lemma basis_vec_in_range_witness :
  0 <= 1 < 3 /\
  exists d s,
    basis_vec (K:=ZRing) 1 3 false = Done d
    /\ basis_vec (K:=ZRing) 1 3 true = Done s
    /\ fmt d = Dense /\ fmt s = Sparse
    /\ rows d = rows s
    /\ shape d = (Z.to_nat 3, 1%nat)
    /\ forall i, (i < Z.to_nat 3)%nat ->
                 entry (rows d) i 0
                 = if (i =? Z.to_nat 1)%nat then c1 else c0.
Proof.
  split; [lia | apply (basis_vec_in_range (K:=ZRing) 1 3); lia].
Defined.

(** X2 at index -1 of dimension 3. *)
Lemma basis_vec_negative_index_witness :
  - 3 <= -1 < 0 /\
  ((exists d, basis_vec (K:=ZRing) (-1) 3 false = Done d
              /\ basis_vec (K:=ZRing) (-1 + 3) 3 false = Done d)
   /\ basis_vec (K:=ZRing) (-1) 3 true = Throw (Py ValueError)).
Proof.
  split; [lia | apply (basis_vec_negative_index (K:=ZRing) (-1) 3); lia].
Defined.

(** X4 at indices 0 and 2 of dimension 3, one dense and one sparse. *)
Lemma basis_vec_orthonormal_witness :
  0 <= 0 < 3 /\ 0 <= 2 < 3 /\
  exists u v g,
    basis_vec (K:=ZRing) 0 3 false = Done u
    /\ basis_vec (K:=ZRing) 2 3 true = Done v
    /\ mmul (dagger u) v = Ok g
    /\ rows g = [[if 0 =? 2 then c1 else c0]].
Proof.
  split; [lia |]. split; [lia |].
  apply (basis_vec_orthonormal (K:=ZRing) 0 2 3 false true); lia.
Defined.

(** X5 at ['y'], dense. *)
Lemma sig_hermitian_involution_witness :
  sig (K:=ZRing) (PyStr "y") false = Some (sigma_y false) /\
  (shape (sigma_y (K:=ZRing) false) = (2%nat, 2%nat)
   /\ fmt (sigma_y (K:=ZRing) false) = storage_of false
   /\ Hermitian (sigma_y (K:=ZRing) false)
   /\ exists g, mmul (sigma_y (K:=ZRing) false) (sigma_y false) = Ok g
                /\ rows g = [[c1; c0]; [c0; c1]]).
Proof.
  split; [reflexivity |].
  apply (sig_hermitian_involution (K:=ZRing) (PyStr "y") false). reflexivity.
Defined.

(** X7 at three sites, every coupling multiplied by 3. *)
Lemma ham_heis_open_homogeneous_witness :
  1 <= 3 /\
  exists h,
    ham_heis (K:=ZRing) 3 1 2 5 7 false false = Ok h
    /\ ham_heis (K:=ZRing) 3 (rmul (r:=ZRing) 3 1) (rmul (r:=ZRing) 3 2)
         (rmul (r:=ZRing) 3 5) (rmul (r:=ZRing) 3 7) false false
       = Ok (mscale (K:=ZRing) 3 h).
Proof.
  split; [lia | apply (ham_heis_open_homogeneous (K:=ZRing) 3 3 1 2 5 7 false); lia].
Defined.

(** X8 at [s = 4], over the reals. *)
Lemma bell_state_falls_through_witness :
  py_in (PyInt 4) bell_names = false /\
  (bell_state (F:=RField) (PyInt 4) = None
   /\ bell_state (F:=RField) (PyStr "phip") = bell_state (PyInt 0)
   /\ bell_state (F:=RField) (PyStr "phim") = bell_state (PyInt 1)
   /\ bell_state (F:=RField) (PyStr "psip") = bell_state (PyInt 2)
   /\ bell_state (F:=RField) (PyStr "psim") = bell_state (PyInt 3)
   /\ singlet (F:=RField) = bell_state (PyStr "psim")).
Proof.
  split; [reflexivity |].
  apply (bell_state_falls_through (F:=RField) (PyInt 4)). reflexivity.
Defined.

(** X9 at the codes 0 and 3, over the reals. *)
Lemma bell_state_orthonormal_witness :
  0 <= 0 <= 3 /\ 0 <= 3 <= 3 /\
  exists u v g,
    bell_state (F:=RField) (PyInt 0) = Some u
    /\ bell_state (F:=RField) (PyInt 3) = Some v
    /\ shape u = (4%nat, 1%nat)
    /\ mmul (dagger u) v = Ok g
    /\ rows g = [[if 0 =? 3 then c1 else c0]].
Proof.
  split; [lia |]. split; [lia |].
  apply (bell_state_orthonormal (F:=RField) 0 3); lia.
Defined.

(** X11 at the vector [(3/5, 0, 4/5)], over the reals. *)
Lemma bloch_state_unit_pure_witness :
  (3 / 5 * (3 / 5) + 0 * 0 + 4 / 5 * (4 / 5) = 1)%R /\
  exists m g,
    bloch_state (F:=RField) (fun _ _ _ => Done NotFinite)
                (3 / 5)%R 0%R (4 / 5)%R false false = Done (Finite m)
    /\ mmul m m = Ok g /\ rows g = rows m.
Proof.
  split; [lra |].
  apply (bloch_state_unit_pure (F:=RField) (fun _ _ _ => Done NotFinite)
                               (3 / 5)%R 0%R (4 / 5)%R false).
  simpl. lra.
Defined.

(** X14 at two qubits, over the reals. *)
Lemma ghz_state_entries_witness :
  1 <= 2 /\
  let D := Z.to_nat (2 ^ 2) in
  exists m g,
    ghz_state (F:=RField) 2 = Done m
    /\ shape m = (D, 1%nat)
    /\ (forall i, (i < D)%nat ->
                  entry (rows m) i 0
                  = if ((i =? 0) || (i =? D - 1))%nat
                    then RtoC (rdiv r1 root2) else c0)
    /\ mmul (dagger m) m = Ok g
    /\ rows g = [[c1]].
Proof.
  split; [lia | apply (ghz_state_entries (F:=RField) 2); lia].
Defined.
